(** * Real-Or-Reel URL scanner: a verified model of [scanner.js]

    The development embeds the analyzer of [src/scanner.js] (the edit-distance
    routine, the two pattern helpers, the static pattern data and
    [analyzeURL]) and proves the properties its specification states.

    Conventions of the embedding.
    - A JavaScript string is the list of its UTF-16 code units ([list N]).
    - JavaScript numbers that occur are small non-negative integers; table
      cells and loop counters are [nat], scores are [Z] (the source subtracts).
    - A computation that, in the source, would read a missing array element
      or call a method on [undefined] returns [None].  The totality theorems
      show that this never happens.
    - [String.prototype.toLowerCase] is the Unicode case mapping of the
      runtime; it is a parameter of the analyzer, constrained only on
      ASCII-only strings. *)

From Stdlib Require Import NArith ZArith List String Ascii Lia.
From stdpp Require Import base option list numbers.

(** ** Strings *)

Abbreviation jsstring := (list N).

(** A string literal of the source, as code units (ASCII literals only). *)
Definition js (s : string) : jsstring :=
  List.map N_of_ascii (list_ascii_of_string s).

Definition in_range (lo hi c : N) : bool := ((lo <=? c) && (c <=? hi))%N.

(** WhiteSpace and LineTerminator code points, as removed by [trim]. *)
Definition isWhiteSpace (c : N) : bool :=
  (in_range 9 13 c || (c =? 32) || (c =? 160) || (c =? 5760)
   || in_range 8192 8202 c || (c =? 8232) || (c =? 8233) || (c =? 8239)
   || (c =? 8287) || (c =? 12288) || (c =? 65279))%N.

Fixpoint trimStart (s : jsstring) : jsstring :=
  match s with
  | [] => []
  | c :: t => if isWhiteSpace c then trimStart t else s
  end.

Definition trimEnd (s : jsstring) : jsstring := rev (trimStart (rev s)).

Definition trim (s : jsstring) : jsstring := trimEnd (trimStart s).

(** [s.startsWith(pat)] *)
Fixpoint startsWith (s pat : jsstring) : bool :=
  match pat, s with
  | [], _ => true
  | _ :: _, [] => false
  | p :: pat', c :: s' => (c =? p)%N && startsWith s' pat'
  end.

(** [s.includes(pat)] *)
Fixpoint includes (s pat : jsstring) : bool :=
  startsWith s pat ||
  match s with
  | [] => false
  | _ :: t => includes t pat
  end.

(** [s.endsWith(pat)]: the last [length pat] units of [s] are [pat]. *)
Definition endsWith (s pat : jsstring) : bool :=
  (length pat <=? length s) && startsWith (drop (length s - length pat) s) pat.

(** [s.split(sep)] for a separator that matches exactly one code unit
    (a one-character string or a character class).  The result always has
    at least one piece; the empty string splits into one empty piece. *)
Fixpoint split (sep : N → bool) (s : jsstring) : list jsstring :=
  match s with
  | [] => [[]]
  | c :: t =>
      if sep c then [] :: split sep t
      else match split sep t with
           | piece :: rest => (c :: piece) :: rest
           | [] => [[c]]
           end
  end.

(** [arr.join(sep)] *)
Fixpoint join (sep : jsstring) (l : list jsstring) : jsstring :=
  match l with
  | [] => []
  | [x] => x
  | x :: t => x ++ sep ++ join sep t
  end.

(** [arr.pop()], as the value returned: the last element, [None]
    ([undefined]) for the empty array. *)
Fixpoint pop (l : list jsstring) : option jsstring :=
  match l with
  | [] => None
  | [x] => Some x
  | _ :: t => pop t
  end.

(** [s.match(/c/g)] for a one-unit pattern: the list of matches, or [None]
    ([null]) when there is none. *)
Definition match_all (p : N → bool) (s : jsstring) : option (list jsstring) :=
  match List.filter p s with
  | [] => None
  | ms => Some (List.map (λ c, [c]) ms)
  end.

(** The rest of [s] after the prefix [pat], when [s] starts with it. *)
Definition stripPrefix (pat s : jsstring) : option jsstring :=
  if startsWith s pat then Some (drop (length pat) s) else None.

(** ** Utility functions *)

Definition min3 (x y z : nat) : nat := Nat.min x (Nat.min y z).

(** The table [dp] of [levenshtein]: an array of rows. *)
Abbreviation table := (list (list nat)).

(** [dp[i][j]] as an r-value. *)
Definition dp_get (dp : table) (i j : nat) : option nat :=
  row ← dp !! i; row !! j.

(** [dp[i][j] = v].  Inside the row the cell is overwritten; at the end of
    the row the array grows by one; further out the source would leave
    holes, reported here as [None]. *)
Definition dp_set (dp : table) (i j v : nat) : option table :=
  row ← dp !! i;
  if decide (j < length row) then Some (<[i := <[j := v]> row]> dp)
  else if decide (j = length row) then Some (<[i := row ++ [v]]> dp)
  else None.

(** [for (let k = lo; k <= hi; k++) body], threading the state. *)
Fixpoint for_from {St : Type} (k count : nat) (body : nat → St → option St)
    (s : St) : option St :=
  match count with
  | O => Some s
  | S count' => s' ← body k s; for_from (S k) count' body s'
  end.

Definition for_loop {St : Type} (lo hi : nat) (body : nat → St → option St)
    (s : St) : option St :=
  for_from lo (S hi - lo) body s.

(** [Array.from({ length: n + 1 }, (_, i) => [i])] *)
Definition init_table (n : nat) : table :=
  (λ i, [i]) <$> seq 0 (S n).

(** The value stored by the inner loop body at [dp[i][j]]. *)
Definition cell_value (a b : jsstring) (dp : table) (i j : nat) : option nat :=
  up ← dp_get dp (i - 1) j;
  left ← dp_get dp i (j - 1);
  diag ← dp_get dp (i - 1) (j - 1);
  x ← a !! (j - 1);
  y ← b !! (i - 1);
  Some (min3 (up + 1) (left + 1) (diag + (if (x =? y)%N then 0 else 1))).

Definition levenshtein (a b : jsstring) : option nat :=
  let dp := init_table (length b) in
  dp ← for_loop 1 (length a) (λ j dp, dp_set dp 0 j j) dp;
  dp ← for_loop 1 (length b) (λ i dp,
          for_loop 1 (length a) (λ j dp,
            v ← cell_value a b dp i j;
            dp_set dp i j v) dp) dp;
  dp_get dp (length b) (length a).

(** [/[\u0400-\u04FF\u0370-\u03FF]/.test(str)] *)
Definition hasHomoglyphs (str : jsstring) : bool :=
  existsb (λ c, in_range 1024 1279 c || in_range 880 1023 c) str.

Definition isDigit (c : N) : bool := in_range 48 57 c.
Definition isUpper (c : N) : bool := in_range 65 90 c.
Definition isLower (c : N) : bool := in_range 97 122 c.

(** The class [[A-Za-z0-9+/]]. *)
Definition isBase64 (c : N) : bool :=
  (isUpper c || isLower c || isDigit c || (c =? 43) || (c =? 47))%N.

(** The class [[0-9A-F]] under the [i] flag. *)
Definition isHex (c : N) : bool :=
  isDigit c || in_range 65 70 c || in_range 97 102 c.

(** The longest prefix of units in a class, and what follows it. *)
Fixpoint span (p : N → bool) (s : jsstring) : jsstring * jsstring :=
  match s with
  | [] => ([], [])
  | c :: t => if p c then let '(u, v) := span p t in (c :: u, v) else ([], s)
  end.

(** [/^[A-Za-z0-9+/]{12,}={0,2}$/.test(str)]: the class excludes ['='], so
    the run of class units is the longest one, followed by at most two
    ['='] and the end of the string. *)
Definition test_base64 (str : jsstring) : bool :=
  let '(run, rest) := span isBase64 str in
  (12 <=? length run) &&
  match rest with
  | [] => true
  | [61%N] => true
  | [61%N; 61%N] => true
  | _ => false
  end.

(** [/^[0-9A-F]{16,}$/i.test(str)] *)
Definition test_hex (str : jsstring) : bool :=
  (16 <=? length str) && forallb isHex str.

Definition looksEncoded (str : jsstring) : bool :=
  test_base64 str || test_hex str.

(** ** Pattern data *)

Definition phishingClusters : list (list jsstring) :=
  [ [js "login"; js "verify"]; [js "secure"; js "update"];
    [js "account"; js "verify"]; [js "security"; js "alert"];
    [js "action"; js "required"]; [js "package"; js "held"];
    [js "delivery"; js "confirm"]; [js "account"; js "locked"];
    [js "review"; js "appeal"]; [js "billing"; js "payment"] ].

Definition highRiskBrands : list jsstring :=
  [ js "bankofamerica"; js "boa"; js "chase"; js "wellsfargo";
    js "instagram"; js "facebook"; js "meta"; js "apple"; js "appleid";
    js "icloud"; js "outlook"; js "hotmail"; js "fedex"; js "ups";
    js "usps"; js "dhl" ].

Definition autoUnsafeTLDs : list jsstring :=
  [ js ".fake"; js ".invalid"; js ".test"; js ".support";
    js ".support-login"; js ".co-login"; js ".security-check";
    js ".verify-user"; js ".user-update" ].

Definition phishingWords : list jsstring :=
  [ js "login"; js "verify"; js "secure"; js "update"; js "alert";
    js "confirm"; js "required"; js "locked"; js "restore"; js "appeal";
    js "payment"; js "billing"; js "review"; js "suspended"; js "disabled" ].

Definition deliveryWords : list jsstring :=
  [ js "package"; js "delivery"; js "fedex"; js "usps"; js "ups"; js "dhl";
    js "held"; js "action-required"; js "fee"; js "confirm-details" ].

Record NumberMap := { bad : jsstring; good : jsstring }.

Definition numberMaps : list NumberMap :=
  [ {| bad := js "0"; good := js "o" |}; {| bad := js "1"; good := js "l" |};
    {| bad := js "3"; good := js "e" |}; {| bad := js "5"; good := js "s" |};
    {| bad := js "7"; good := js "t" |} ].

Definition baseBrands : list jsstring :=
  [ js "paypal"; js "google"; js "amazon"; js "apple";
    js "facebook"; js "netflix"; js "chase"; js "microsoft" ].

(** ** Main analyzer *)

Module Rule.
(** One entry of the [rules] array.  [check] is the closure of the source;
    it answers [None] where the source would fail. *)
Record t := { check : unit → option bool; score : Z; msg : jsstring }.
End Rule.

Inductive Verdict := SAFE | SUSPICIOUS | UNSAFE.

Record AnalysisResult := {
  score : Z;
  safePercent : Z;
  verdict : Verdict;
  findings : list jsstring
}.

(** The match of [/^https?:\/\//] at the start of [s]: what follows it.
    The optional ['s'] is tried first, then skipped, as the matcher does. *)
Definition match_scheme (s : jsstring) : option jsstring :=
  r ← stripPrefix (js "http") s;
  match stripPrefix (js "s") r ≫= stripPrefix (js "://") with
  | Some t => Some t
  | None => stripPrefix (js "://") r
  end.

(** [.replace(/^https?:\/\//, "")] *)
Definition replace_scheme (s : jsstring) : jsstring :=
  default s (match_scheme s).

(** [.replace(/^www\./, "")] *)
Definition replace_www (s : jsstring) : jsstring :=
  default s (stripPrefix (js "www.") s).

(** The class [[/?#]]. *)
Definition isPathDelim (c : N) : bool := ((c =? 47) || (c =? 63) || (c =? 35))%N.

(** [/[0-9]{3,}/.test(s)] *)
Fixpoint test_digits3 (s : jsstring) : bool :=
  match s with
  | c1 :: t =>
      match t with
      | c2 :: c3 :: _ => (isDigit c1 && isDigit c2 && isDigit c3) || test_digits3 t
      | _ => false
      end
  | [] => false
  end.

(** [(s.match(/c/g) || []).length] *)
Definition count_matches (c : N) (s : jsstring) : nat :=
  length (default [] (match_all (N.eqb c) s)).

(** The entries of the [rules] array, one definition per kind, each a
    closure over the comparison forms it reads. *)

(* Auto-unsafe TLDs *)
Definition tldRule (host tld : jsstring) : Rule.t :=
  {| Rule.check := λ _, Some (includes host tld);
     Rule.score := 90;
     Rule.msg := js "Domain uses high-risk TLD '" ++ tld ++ js "'." |}.

(* Hyphen overload *)
Definition hyphenRule (host : jsstring) : Rule.t :=
  {| Rule.check := λ _, Some (4 <=? count_matches 45 host);
     Rule.score := 40;
     Rule.msg := js "Excessive hyphens indicate synthetic phishing." |}.

(* Brand impersonation *)
Definition brandRule (host brand : jsstring) : Rule.t :=
  {| Rule.check := λ _, Some (includes host brand);
     Rule.score := 50;
     Rule.msg := js "Brand impersonation detected: '" ++ brand ++ js "'." |}.

(* Keyword clusters *)
Definition clusterRule (lower : jsstring) (cluster : list jsstring) : Rule.t :=
  {| Rule.check := λ _,
       Some (2 <=? length (List.filter (λ w, includes lower w) cluster));
     Rule.score := 50;
     Rule.msg := js "Phishing keyword cluster detected: "
                 ++ join (js " + ") cluster |}.

(* Simple phishing words *)
Definition wordRule (host word : jsstring) : Rule.t :=
  {| Rule.check := λ _, Some (includes host word);
     Rule.score := 25;
     Rule.msg := js "Suspicious keyword detected: '" ++ word ++ js "'." |}.

(* Numeric tokens *)
Definition numericRule (host : jsstring) : Rule.t :=
  {| Rule.check := λ _, Some (test_digits3 host);
     Rule.score := 25;
     Rule.msg := js "Suspicious numeric token detected." |}.

(* Delivery scam patterns *)
Definition deliveryRule (lower word : jsstring) : Rule.t :=
  {| Rule.check := λ _, Some (includes lower word);
     Rule.score := 40;
     Rule.msg := js "Delivery scam pattern: '" ++ word ++ js "'." |}.

(* Encoded redirect: [pop] of an empty array is [undefined], which the
   pattern test reads as the string "undefined" *)
Definition encodedRule (lower : jsstring) : Rule.t :=
  {| Rule.check := λ _,
       Some (looksEncoded
               (default (js "undefined") (pop (split (N.eqb 61) lower))));
     Rule.score := 40;
     Rule.msg := js "Encoded redirect detected." |}.

(* Homoglyphs *)
Definition homoglyphRule (url : jsstring) : Rule.t :=
  {| Rule.check := λ _, Some (hasHomoglyphs url);
     Rule.score := 40;
     Rule.msg := js "Foreign homoglyph characters detected." |}.

(* Typosquatting numeric replacements *)
Definition digitRule (host : jsstring) (m : NumberMap) : Rule.t :=
  {| Rule.check := λ _, Some (includes host (bad m));
     Rule.score := 45;
     Rule.msg := js "Typosquatting substitution: '" ++ bad m ++ js "' for '"
                 ++ good m ++ js "'." |}.

(* Levenshtein similarity; the dash of the message is U+2014 *)
Definition similarityRule (host b : jsstring) : Rule.t :=
  {| Rule.check := λ _,
       dist ← levenshtein host b;
       Some ((dist <=? 2) && negb (endsWith host (b ++ js ".com")));
     Rule.score := 50;
     Rule.msg := js "Domain resembles '" ++ b ++ js "' " ++ [8212%N]
                 ++ js " highly suspicious." |}.

(* Long URL *)
Definition longRule (url : jsstring) : Rule.t :=
  {| Rule.check := λ _, Some (80 <? length url);
     Rule.score := 20;
     Rule.msg := js "URL is unusually long." |}.

(* Excessive subdomains *)
Definition subdomainRule (host : jsstring) : Rule.t :=
  {| Rule.check := λ _, Some (3 <? count_matches 46 host);
     Rule.score := 25;
     Rule.msg := js "Excessive subdomains " ++ [8212%N]
                 ++ js " common in phishing." |}.

(** The [rules] array, in declaration order. *)
Definition rules (url lower host : jsstring) : list Rule.t :=
  List.map (tldRule host) autoUnsafeTLDs
  ++ [hyphenRule host]
  ++ List.map (brandRule host) highRiskBrands
  ++ List.map (clusterRule lower) phishingClusters
  ++ List.map (wordRule host) phishingWords
  ++ [numericRule host]
  ++ List.map (deliveryRule lower) deliveryWords
  ++ [encodedRule lower]
  ++ [homoglyphRule url]
  ++ List.map (digitRule host) numberMaps
  ++ List.map (similarityRule host) baseBrands
  ++ [longRule url]
  ++ [subdomainRule host].

(** [rules.forEach(rule => { if (rule.check()) { risk += rule.score;
    findings.push(rule.msg); } })], on the pair [(risk, findings)]. *)
Fixpoint forEach (rs : list Rule.t) (st : Z * list jsstring)
    : option (Z * list jsstring) :=
  match rs with
  | [] => Some st
  | rule :: rest =>
      fired ← Rule.check rule tt;
      forEach rest
        (if fired : bool
         then (fst st + Rule.score rule, snd st ++ [Rule.msg rule])%Z
         else st)
  end.

(** The tail of [analyzeURL] after the loop. *)
Definition conclude (risk : Z) (findings : list jsstring) : AnalysisResult :=
  let score := Z.min 100 risk in
  let safePercent := Z.max 0 (100 - score) in
  let verdict := SAFE in
  let verdict := if (safePercent <? 80)%Z then SUSPICIOUS else verdict in
  let verdict := if (safePercent <? 50)%Z then UNSAFE else verdict in
  {| score := score; safePercent := safePercent;
     verdict := verdict; findings := findings |}.

(** ASCII lower-casing of one code unit. *)
Definition lowerUnit (c : N) : N := if isUpper c then (c + 32)%N else c.

Definition isAscii (c : N) : bool := (c <? 128)%N.

(** A lower-casing function that is exact on ASCII-only strings. *)
Definition asciiLowerCase (s : jsstring) : jsstring := List.map lowerUnit s.

Section Analyzer.

(** [String.prototype.toLowerCase] of the runtime. *)
Variable toLowerCase : jsstring → jsstring.

(** The three comparison forms derived from the input; [host] is element
    0 of the split, [None] if the array had no element. *)
Definition forms (inputUrl : jsstring)
    : jsstring * jsstring * jsstring * option jsstring :=
  let url := trim inputUrl in
  let lower := toLowerCase url in
  let clean := replace_www (replace_scheme lower) in
  let host := split isPathDelim clean !! 0 in
  (url, lower, clean, host).

Definition analyzeURL (inputUrl : jsstring) : option AnalysisResult :=
  let url := trim inputUrl in
  let lower := toLowerCase url in
  let clean := replace_www (replace_scheme lower) in
  host ← split isPathDelim clean !! 0;
  '(risk, findings) ← forEach (rules url lower host) (0%Z, []);
  Some (conclude risk findings).

End Analyzer.

(** ** Vocabulary of the specification *)

(** A rule fires when its predicate is true. *)
Definition fires (r : Rule.t) : bool :=
  match Rule.check r tt with
  | Some true => true
  | _ => false
  end.

Definition fired (rs : list Rule.t) : list Rule.t := List.filter fires rs.

(** The sum of the weights of a list of rules. *)
Definition total_weight (rs : list Rule.t) : Z :=
  fold_right (λ r acc, Rule.score r + acc)%Z 0%Z rs.

(** An [AnalysisResult] as the data model describes it. *)
Definition well_formed (r : AnalysisResult) : Prop :=
  (0 ≤ score r ≤ 100)%Z ∧ (0 ≤ safePercent r ≤ 100)%Z
  ∧ (safePercent r = 100 - score r)%Z.

(** The normalizer, following the words of the specification.  Stripping an
    optional leading string: *)
Definition strip_leading (pat s : jsstring) : jsstring :=
  if startsWith s pat then drop (length pat) s else s.

(** stripping an optional leading [http://] or [https://]: *)
Definition strip_scheme_spec (s : jsstring) : jsstring :=
  if startsWith s (js "http://") then drop 7 s
  else if startsWith s (js "https://") then drop 8 s
  else s.

(** the prefix ending at the first delimiter, or the whole string: *)
Fixpoint prefix_before (p : N → bool) (s : jsstring) : jsstring :=
  match s with
  | [] => []
  | c :: t => if p c then [] else c :: prefix_before p t
  end.

(** and the steps in their order. *)
Definition normalize_spec (toLowerCase : jsstring → jsstring) (raw : jsstring)
    : jsstring * jsstring * jsstring * jsstring :=
  let trimmed := trim raw in
  let trimmedLower := toLowerCase trimmed in
  let hostStripped :=
    strip_leading (js "www.") (strip_scheme_spec trimmedLower) in
  let host := prefix_before isPathDelim hostStripped in
  (trimmed, trimmedLower, hostStripped, host).

(** ** Edit distance, as the specification understands it *)

(** One unit-cost edit anywhere in a string. *)
Inductive edit1 : jsstring → jsstring → Prop :=
  | edit_insert p c q : edit1 (p ++ q) (p ++ c :: q)
  | edit_delete p c q : edit1 (p ++ c :: q) (p ++ q)
  | edit_subst p c d q : edit1 (p ++ c :: q) (p ++ d :: q).

(** [edits n s t]: [n] successive edits turn [s] into [t]. *)
Inductive edits : nat → jsstring → jsstring → Prop :=
  | edits_done s : edits 0 s s
  | edits_step n s t u : edit1 s t → edits n t u → edits (S n) s u.

(** [d] is the minimum edit distance between [s] and [t]. *)
Definition min_edit_distance (s t : jsstring) (d : nat) : Prop :=
  edits d s t ∧ ∀ n, edits n s t → d ≤ n.

Definition cost (x y : N) : nat := if (x =? y)%N then 0 else 1.

(** The recurrence of the table, read on whole strings from their heads. *)
Fixpoint lev (a b : jsstring) : nat :=
  match a with
  | [] => length b
  | x :: a' =>
      (fix lev_row (b : jsstring) : nat :=
         match b with
         | [] => S (length a')
         | y :: b' =>
             min3 (lev_row b' + 1) (lev a' (y :: b') + 1) (lev a' b' + cost x y)
         end) b
  end.

(** The distance between the first [j] units of [a] and the first [i]
    units of [b]: the intended content of [dp[i][j]]. *)
Definition prefix_dist (a b : jsstring) (i j : nat) : nat :=
  lev (rev (take j a)) (rev (take i b)).

Arguments prefix_dist : simpl never.

(** The table while row [i] is being filled and holds [j] cells: the rows
    above are complete, the rows below still hold their first cell. *)
Definition table_inv (a b : jsstring) (i j : nat) (dp : table) : Prop :=
  length dp = S (length b)
  ∧ (∀ k, k < i → dp !! k = Some (prefix_dist a b k <$> seq 0 (S (length a))))
  ∧ dp !! i = Some (prefix_dist a b i <$> seq 0 j)
  ∧ (∀ k, i < k ≤ length b → dp !! k = Some [k]).

(** ** Inputs of the scenarios *)

(** An input of 85 units: a short host followed by a long path. *)
Definition long_input : jsstring := js "http://example.org/" ++ repeat 97%N 66.

Definition go0gle_input : jsstring := js "http://go0gle.com".

Definition go0gle_host : jsstring := js "go0gle.com".

Definition paypa1_input : jsstring :=
  js "http://www.paypa1-login-secure-verify.com".

Definition paypa1_host : jsstring := js "paypa1-login-secure-verify.com".

Definition paypa1_findings : list jsstring :=
  [ js "Phishing keyword cluster detected: login + verify";
    js "Suspicious keyword detected: 'login'.";
    js "Suspicious keyword detected: 'verify'.";
    js "Suspicious keyword detected: 'secure'.";
    js "Typosquatting substitution: '1' for 'l'." ].

(** ** Scan handler: the parts that compute *)

(** The [emoji] constant of the submit handler; the strings are U+2705,
    U+26A0 U+FE0F and U+274C. *)
Definition emoji (result : AnalysisResult) : jsstring :=
  match verdict result with
  | SAFE => [9989%N]
  | SUSPICIOUS => [9888%N; 65039%N]
  | UNSAFE => [10060%N]
  end.

(** The [list] constant: [result.findings.map(i => `<li>${i}</li>`).join("")]. *)
Definition reasonsList (result : AnalysisResult) : jsstring :=
  join [] (List.map (λ i, js "<li>" ++ i ++ js "</li>") (findings result)).

(** The value assigned to [bar.style.background]. *)
Definition barBackground (result : AnalysisResult) : jsstring :=
  if (80 <=? safePercent result)%Z then js "#2ecc71"
  else if (50 <=? safePercent result)%Z then js "#f1c40f"
  else js "#e74c3c".

(** The messages of the catalogue, in order. *)
Definition catalogue_messages : list jsstring :=
  List.map Rule.msg (rules [] [] []).

(** * Properties *)

(** ** The recurrence *)

Lemma lev_nil_l b : lev [] b = length b.
Proof. reflexivity. Qed.

Lemma lev_nil_r a : lev a [] = length a.
Proof. by destruct a. Qed.

Lemma lev_cons_cons x a y b :
  lev (x :: a) (y :: b)
  = min3 (lev (x :: a) b + 1) (lev a (y :: b) + 1) (lev a b + cost x y).
Proof. reflexivity. Qed.

Global Opaque lev.

Lemma cost_le_1 x y : cost x y ≤ 1.
Proof. unfold cost. destruct (x =? y)%N; lia. Qed.

Lemma cost_refl x : cost x x = 0.
Proof. unfold cost. by rewrite N.eqb_refl. Qed.

Lemma cost_sym x y : cost x y = cost y x.
Proof. unfold cost. by rewrite N.eqb_sym. Qed.

Lemma cost_neq x y : x ≠ y → cost x y = 1.
Proof. unfold cost. intros H. by apply N.eqb_neq in H as ->. Qed.

Ltac lev_step :=
  rewrite ?lev_cons_cons, ?lev_nil_l, ?lev_nil_r; unfold min3; simpl length.

Lemma lev_refl a : lev a a = 0.
Proof.
  induction a as [|x a IH]; [done|].
  lev_step. rewrite IH, cost_refl. lia.
Qed.

Lemma lev_sym a b : lev a b = lev b a.
Proof.
  revert b. induction a as [|x a IHa]; intros b.
  - by rewrite lev_nil_l, lev_nil_r.
  - induction b as [|y b IHb]; [by rewrite lev_nil_l, lev_nil_r|].
    lev_step. rewrite IHb, (IHa (y :: b)), (IHa b), (cost_sym x y). lia.
Qed.

(** Dropping the head of either string costs at most one edit. *)
Lemma lev_cons_l_le x a b : lev (x :: a) b ≤ S (lev a b).
Proof. destruct b; lev_step; lia. Qed.

Lemma lev_cons_r_le a y b : lev a (y :: b) ≤ S (lev a b).
Proof. rewrite (lev_sym a), (lev_sym a). apply lev_cons_l_le. Qed.

(** Adding a head to the first string saves at most one edit. *)
Lemma lev_uncons_l x a b : lev a b ≤ S (lev (x :: a) b).
Proof.
  induction b as [|y b IH]; [lev_step; lia|].
  lev_step. pose proof (lev_cons_r_le a y b). lia.
Qed.

Lemma lev_subst_head c d q b : lev (c :: q) b ≤ S (lev (d :: q) b).
Proof.
  induction b as [|y b IH]; [lev_step; lia|].
  lev_step. pose proof (cost_le_1 c y). lia.
Qed.

Lemma lev_cons_cong z u u' :
  (∀ b, lev u b ≤ S (lev u' b)) → ∀ b, lev (z :: u) b ≤ S (lev (z :: u') b).
Proof.
  intros H b. induction b as [|y b IH].
  - specialize (H []). rewrite !lev_nil_r in *. simpl. lia.
  - lev_step. pose proof (H (y :: b)). pose proof (H b). lia.
Qed.

Lemma lev_app_cong p u u' :
  (∀ b, lev u b ≤ S (lev u' b)) → ∀ b, lev (p ++ u) b ≤ S (lev (p ++ u') b).
Proof. induction p as [|z p IH]; intros H; [done|]. apply lev_cons_cong, IH, H. Qed.

(** One edit moves the recurrence by at most one. *)
Lemma lev_edit1 a a' : edit1 a a' → ∀ b, lev a b ≤ S (lev a' b).
Proof.
  intros [p c q|p c q|p c d q]; apply lev_app_cong; intros b.
  - apply lev_uncons_l.
  - apply lev_cons_l_le.
  - apply lev_subst_head.
Qed.

Lemma lev_lower_bound n a b : edits n a b → lev a b ≤ n.
Proof.
  induction 1 as [s|n s t u Hst _ IH].
  - by rewrite lev_refl.
  - pose proof (lev_edit1 _ _ Hst u). lia.
Qed.

(** ** Edit sequences *)

Lemma edit1_cons c s t : edit1 s t → edit1 (c :: s) (c :: t).
Proof.
  intros [p x q|p x q|p x y q].
  - apply (edit_insert (c :: p)).
  - apply (edit_delete (c :: p)).
  - apply (edit_subst (c :: p)).
Qed.

Lemma edit1_rev s t : edit1 s t → edit1 (rev s) (rev t).
Proof.
  intros [p x q|p x q|p x y q]; rewrite !rev_app_distr; simpl;
    rewrite <- ?app_assoc; simpl.
  - apply edit_insert.
  - apply edit_delete.
  - apply edit_subst.
Qed.

Lemma edits_cons c n s t : edits n s t → edits n (c :: s) (c :: t).
Proof.
  induction 1 as [s|n s t u Hst _ IH]; [constructor|].
  eapply edits_step; [apply edit1_cons, Hst|done].
Qed.

Lemma edits_rev n s t : edits n s t → edits n (rev s) (rev t).
Proof.
  induction 1 as [s|n s t u Hst _ IH]; [constructor|].
  eapply edits_step; [apply edit1_rev, Hst|done].
Qed.

Lemma edits_trans n m s t u : edits n s t → edits m t u → edits (n + m) s u.
Proof.
  induction 1 as [s|n s t' t Hst _ IH]; intros Htu; [done|].
  simpl. eapply edits_step; [apply Hst|by apply IH].
Qed.

Lemma edits_one s t : edit1 s t → edits 1 s t.
Proof. intros H. eapply edits_step; [apply H|constructor]. Qed.

Lemma edits_insert_all b : edits (length b) [] b.
Proof.
  induction b as [|y b IH]; [constructor|].
  simpl. eapply edits_step; [apply (edit_insert [] y [])|].
  by apply edits_cons.
Qed.

Lemma edits_delete_all a : edits (length a) a [].
Proof.
  induction a as [|x a IH]; [constructor|].
  simpl. eapply edits_step; [apply (edit_delete [] x a)|done].
Qed.

(** The recurrence is reached by an edit sequence. *)
Lemma lev_upper_bound a b : edits (lev a b) a b.
Proof.
  revert b. induction a as [|x a IHa]; intros b.
  { rewrite lev_nil_l. apply edits_insert_all. }
  induction b as [|y b IHb].
  { rewrite lev_nil_r. apply edits_delete_all. }
  rewrite lev_cons_cons.
  assert (Hmin : let m := min3 (lev (x :: a) b + 1) (lev a (y :: b) + 1)
                               (lev a b + cost x y) in
                 m = lev (x :: a) b + 1 ∨ m = lev a (y :: b) + 1
                 ∨ m = lev a b + cost x y) by (unfold min3; lia).
  destruct Hmin as [-> | [-> | ->]].
  - eapply edits_trans; [apply IHb|]. apply edits_one, (edit_insert [] y b).
  - rewrite Nat.add_1_r. eapply edits_step; [apply (edit_delete [] x a)|apply IHa].
  - eapply edits_trans; [apply edits_cons, IHa|].
    unfold cost. destruct (N.eqb_spec x y) as [->|_]; [constructor|].
    apply edits_one, (edit_subst [] x y b).
Qed.

Lemma lev_min_edit_distance a b : min_edit_distance a b (lev a b).
Proof. split; [apply lev_upper_bound|intros n; apply lev_lower_bound]. Qed.

Lemma min_edit_distance_unique a b d d' :
  min_edit_distance a b d → min_edit_distance a b d' → d = d'.
Proof. intros [H1 H2] [H1' H2']. apply H2 in H1'. apply H2' in H1. lia. Qed.

Lemma lev_rev a b : lev (rev a) (rev b) = lev a b.
Proof.
  apply Nat.le_antisymm; apply lev_lower_bound.
  - apply edits_rev, lev_upper_bound.
  - pose proof (edits_rev _ _ _ (lev_upper_bound (rev a) (rev b))) as H.
    by rewrite !rev_involutive in H.
Qed.

(** ** The table of [levenshtein] *)

(** Total-correctness rule for the counting loop. *)
Lemma for_from_rule {St : Type} (P : nat → St → Prop) body count :
  ∀ k s,
    P k s →
    (∀ k' s', k ≤ k' < k + count → P k' s' →
              ∃ s'', body k' s' = Some s'' ∧ P (S k') s'') →
    ∃ s', for_from k count body s = Some s' ∧ P (k + count) s'.
Proof.
  induction count as [|count IH]; intros k s HP Hbody; simpl.
  - exists s. by rewrite Nat.add_0_r.
  - destruct (Hbody k s) as (s1 & -> & HP1); [lia|done|]. simpl.
    destruct (IH (S k) s1 HP1) as (s2 & Hs2 & HP2).
    { intros k' s' Hk'. apply Hbody. lia. }
    exists s2. split; [done|]. by replace (k + S count) with (S k + count) by lia.
Qed.

Lemma for_loop_rule {St : Type} (P : nat → St → Prop) lo hi body s :
  lo ≤ S hi →
  P lo s →
  (∀ k s', lo ≤ k ≤ hi → P k s' → ∃ s'', body k s' = Some s'' ∧ P (S k) s'') →
  ∃ s', for_loop lo hi body s = Some s' ∧ P (S hi) s'.
Proof.
  intros Hle HP Hbody. unfold for_loop.
  destruct (for_from_rule P body (S hi - lo) lo s HP) as (s' & Hs' & HP').
  { intros k' s' Hk'. apply Hbody. lia. }
  exists s'. split; [done|]. by replace (S hi) with (lo + (S hi - lo)) by lia.
Qed.

Section Table.

Variables a b : jsstring.

Local Abbreviation D := (prefix_dist a b).
Local Abbreviation Inv := (table_inv a b).

Lemma prefix_dist_row0 j : j ≤ length a → D 0 j = j.
Proof.
  intros Hj. unfold prefix_dist. rewrite take_0. simpl.
  by rewrite lev_nil_r, length_rev, length_take_le.
Qed.

Lemma prefix_dist_col0 i : i ≤ length b → D i 0 = i.
Proof.
  intros Hi. unfold prefix_dist. rewrite take_0. simpl.
  by rewrite lev_nil_l, length_rev, length_take_le.
Qed.

Lemma prefix_dist_step i j x y :
  a !! j = Some x → b !! i = Some y →
  D (S i) (S j) = min3 (D i (S j) + 1) (D (S i) j + 1) (D i j + cost x y).
Proof.
  intros Hx Hy. unfold prefix_dist.
  rewrite (take_S_r a j x Hx), (take_S_r b i y Hy), !rev_unit.
  apply lev_cons_cons.
Qed.

Lemma prefix_dist_full : D (length b) (length a) = lev a b.
Proof. unfold prefix_dist. by rewrite !firstn_all, lev_rev. Qed.

Lemma table_inv_init : Inv 0 1 (init_table (length b)).
Proof.
  unfold table_inv, init_table. split_and!.
  - by rewrite length_fmap, length_seq.
  - lia.
  - simpl. by rewrite prefix_dist_col0 by lia.
  - intros k Hk. rewrite list_lookup_fmap, lookup_seq_lt by lia. done.
Qed.

Lemma dp_get_above i j dp k c :
  Inv i j dp → k < i → c ≤ length a → dp_get dp k c = Some (D k c).
Proof.
  intros (_ & Habove & _) Hk Hc. unfold dp_get.
  rewrite (Habove k Hk). cbv [mbind option_bind].
  by rewrite list_lookup_fmap, lookup_seq_lt by lia.
Qed.

Lemma dp_get_current i j dp c :
  Inv i j dp → c < j → dp_get dp i c = Some (D i c).
Proof.
  intros (_ & _ & Hcur & _) Hc. unfold dp_get. rewrite Hcur.
  cbv [mbind option_bind].
  by rewrite list_lookup_fmap, lookup_seq_lt by lia.
Qed.

(** Storing the right value at the end of the current row extends it. *)
Lemma dp_set_current i j dp :
  Inv i j dp → i ≤ length b →
  ∃ dp', dp_set dp i j (D i j) = Some dp' ∧ Inv i (S j) dp'.
Proof.
  intros (Hlen & Habove & Hcur & Hbelow) Hi. unfold dp_set.
  rewrite Hcur. cbv [mbind option_bind]. rewrite length_fmap, length_seq.
  destruct (decide (j < j)) as [?|_]; [lia|].
  destruct (decide (j = j)) as [_|?]; [|done].
  eexists. split; [done|]. split_and!.
  - by rewrite length_insert.
  - intros k Hk. rewrite list_lookup_insert_ne by lia. by apply Habove.
  - rewrite list_lookup_insert_eq by lia. by rewrite seq_S, fmap_app.
  - intros k Hk. rewrite list_lookup_insert_ne by lia. by apply Hbelow.
Qed.

Lemma table_inv_next_row i dp :
  Inv i (S (length a)) dp → i < length b → Inv (S i) 1 dp.
Proof.
  intros (Hlen & Habove & Hcur & Hbelow) Hi. split_and!; [done|..].
  - intros k Hk. destruct (decide (k = i)) as [->|]; [done|]. apply Habove. lia.
  - rewrite Hbelow by lia. simpl. by rewrite prefix_dist_col0 by lia.
  - intros k Hk. apply Hbelow. lia.
Qed.

(** The first loop fills row 0. *)
Lemma fill_row0 :
  ∃ dp, for_loop 1 (length a) (λ j dp, dp_set dp 0 j j)
          (init_table (length b)) = Some dp
        ∧ Inv 0 (S (length a)) dp.
Proof.
  apply (for_loop_rule (λ j dp, Inv 0 j dp)); [lia|apply table_inv_init|].
  intros j dp Hj HInv.
  destruct (dp_set_current 0 j dp HInv) as (dp' & Hset & HInv'); [lia|].
  rewrite prefix_dist_row0 in Hset by lia. eauto.
Qed.

(** One iteration of the inner loop. *)
Lemma inner_body i j dp :
  1 ≤ i ≤ length b → 1 ≤ j ≤ length a → Inv i j dp →
  ∃ dp', (v ← cell_value a b dp i j; dp_set dp i j v) = Some dp'
         ∧ Inv i (S j) dp'.
Proof.
  intros Hi Hj HInv.
  destruct i as [|i]; [lia|]. destruct j as [|j]; [lia|].
  destruct (lookup_lt_is_Some_2 a j) as [x Hx]; [lia|].
  destruct (lookup_lt_is_Some_2 b i) as [y Hy]; [lia|].
  unfold cell_value. simpl. rewrite !Nat.sub_0_r.
  rewrite (dp_get_above _ _ _ i (S j) HInv) by lia. simpl.
  rewrite (dp_get_current _ _ _ j HInv) by lia. simpl.
  rewrite (dp_get_above _ _ _ i j HInv) by lia. simpl.
  rewrite Hx, Hy. simpl. fold (cost x y).
  rewrite <- (prefix_dist_step i j x y Hx Hy).
  apply dp_set_current; [done|lia].
Qed.

(** The nested loops fill rows 1 to [length b]. *)
Lemma fill_rows dp0 :
  Inv 0 (S (length a)) dp0 →
  ∃ dp, for_loop 1 (length b) (λ i dp,
          for_loop 1 (length a) (λ j dp,
            v ← cell_value a b dp i j; dp_set dp i j v) dp) dp0 = Some dp
        ∧ Inv (length b) (S (length a)) dp.
Proof.
  intros H0.
  apply (for_loop_rule (λ i dp, Inv (pred i) (S (length a)) dp) 1 (length b));
    [lia|done|].
  intros i dp Hi HInv. simpl.
  apply (for_loop_rule (λ j dp, Inv i j dp)); [lia| |].
  - destruct i as [|i]; [lia|]. apply table_inv_next_row; [done|lia].
  - intros j dp' Hj HInv'. by apply inner_body.
Qed.

(** [levenshtein] never reads a missing cell, and returns the value of
    the recurrence. *)
Lemma levenshtein_lev : levenshtein a b = Some (lev a b).
Proof.
  unfold levenshtein.
  destruct fill_row0 as (dp0 & -> & H0). simpl.
  destruct (fill_rows dp0 H0) as (dp & -> & HInv). simpl.
  rewrite (dp_get_current _ _ _ (length a) HInv) by lia.
  by rewrite prefix_dist_full.
Qed.

End Table.

(** C4. [levenshtein a b] is the minimum edit distance between [a] and [b]
    under unit-cost insertions, deletions and substitutions: some sequence
    of that many edits turns [a] into [b] and no shorter one does.  In
    particular [levenshtein a a] is 0, [levenshtein "" b] is the length of
    [b], and [levenshtein] is symmetric. *)
Theorem levenshtein_min_edit_distance :
  (∀ a b, ∃ d, levenshtein a b = Some d ∧ min_edit_distance a b d)
  ∧ (∀ a, levenshtein a a = Some 0)
  ∧ (∀ b, levenshtein [] b = Some (length b))
  ∧ (∀ a b, levenshtein a b = levenshtein b a).
Proof.
  split_and!.
  - intros a b. exists (lev a b). split; [apply levenshtein_lev|].
    apply lev_min_edit_distance.
  - intros a. by rewrite levenshtein_lev, lev_refl.
  - intros b. by rewrite levenshtein_lev, lev_nil_l.
  - intros a b. by rewrite !levenshtein_lev, lev_sym.
Qed.

(** ** The similarity rule on hosts that carry a top-level domain *)

Lemma edit1_length s t : edit1 s t → length s ≤ S (length t).
Proof. intros [p c q|p c q|p c d q]; rewrite !length_app; simpl; lia. Qed.

Lemma edits_length n s t : edits n s t → length s ≤ length t + n.
Proof.
  induction 1 as [s|n s t u Hst _ IH]; [lia|].
  apply edit1_length in Hst. lia.
Qed.

Lemma lev_length_diff a b : length a ≤ length b + lev a b.
Proof. apply edits_length, lev_upper_bound. Qed.

(** A host within distance 2 of a brand is too short to end with
    [<brand>.com]: the second conjunct of the similarity check never
    changes its outcome. *)
Lemma similarity_guard_vacuous host b d :
  levenshtein host b = Some d → d ≤ 2 →
  endsWith host (b ++ js ".com") = false.
Proof.
  rewrite levenshtein_lev. intros [= <-] Hd.
  pose proof (lev_length_diff host b) as Hlen.
  unfold endsWith. apply andb_false_iff. left.
  apply Nat.leb_gt. rewrite length_app. simpl. lia.
Qed.

Lemma similarity_guard_vacuous_witness :
  levenshtein (js "gogle") (js "google") = Some 1 ∧ 1 ≤ 2
  ∧ endsWith (js "gogle") (js "google" ++ js ".com") = false.
Proof.
  split; [by vm_compute|]. split; [lia|].
  apply (similarity_guard_vacuous (js "gogle") (js "google") 1); [by vm_compute|lia].
Defined.

(** ** The rule catalogue and the scoring loop *)

Lemma rules_length url lower host : length (rules url lower host) = 79.
Proof. unfold rules. by rewrite !length_app, !length_map. Qed.

Ltac rules_forall :=
  unfold rules; rewrite !Forall_app; split_and!;
  lazymatch goal with
  | |- Forall _ (List.map _ _) => apply List.Forall_map, Forall_forall; intros ? _
  | |- Forall _ [_] => apply Forall_singleton
  end;
  cbn beta.

Lemma rules_checks_total url lower host :
  Forall (λ r, is_Some (Rule.check r tt)) (rules url lower host).
Proof.
  rules_forall; try by eexists.
  cbn [Rule.check similarityRule]. rewrite levenshtein_lev. by eexists.
Qed.

Lemma rules_weights_positive url lower host :
  Forall (λ r, (0 < Rule.score r)%Z) (rules url lower host).
Proof. rules_forall; simpl; lia. Qed.

Lemma Forall_fired (P : Rule.t → Prop) rs : Forall P rs → Forall P (fired rs).
Proof.
  unfold fired. induction 1 as [|r rs Hr Hrs IH]; simpl; [constructor|].
  destruct (fires r); [by constructor|done].
Qed.

Lemma fired_length_le rs : length (fired rs) ≤ length rs.
Proof. apply filter_length_le. Qed.

Lemma total_weight_nonneg rs :
  Forall (λ r, (0 < Rule.score r)%Z) rs → (0 ≤ total_weight rs)%Z.
Proof. induction 1; simpl; lia. Qed.

Lemma total_weight_zero rs :
  Forall (λ r, (0 < Rule.score r)%Z) rs → total_weight rs = 0%Z ↔ rs = [].
Proof.
  intros H. split; [|by intros ->].
  destruct H as [|r rs Hr Hrs]; [done|]. simpl.
  apply total_weight_nonneg in Hrs. lia.
Qed.

(** The loop adds the weight and appends the message of every fired rule,
    in order, and of no other. *)
Lemma forEach_fired rs : ∀ risk fs,
  Forall (λ r, is_Some (Rule.check r tt)) rs →
  forEach rs (risk, fs)
  = Some ((risk + total_weight (fired rs))%Z,
          fs ++ List.map Rule.msg (fired rs)).
Proof.
  induction rs as [|r rs IH]; intros risk fs Hrs; simpl.
  - by rewrite Z.add_0_r, app_nil_r.
  - inversion_clear Hrs as [|? ? [v Hv] Hrs'].
    unfold fired, fires in *. simpl. rewrite Hv. simpl.
    destruct v; rewrite IH by done; simpl; [|done].
    by rewrite Z.add_assoc, <- app_assoc.
Qed.

(** ** The tail of the analyzer *)

Lemma conclude_score risk fs :
  (0 ≤ risk)%Z →
  score (conclude risk fs) = Z.min 100 risk
  ∧ (0 ≤ score (conclude risk fs) ≤ 100)%Z
  ∧ (safePercent (conclude risk fs) = 100 - score (conclude risk fs))%Z.
Proof. intros H. unfold conclude. simpl. lia. Qed.

Lemma conclude_findings risk fs : findings (conclude risk fs) = fs.
Proof. reflexivity. Qed.

Lemma conclude_verdict risk fs :
  let r := conclude risk fs in
  (verdict r = SAFE ↔ (80 ≤ safePercent r)%Z)
  ∧ (verdict r = SUSPICIOUS ↔ (50 ≤ safePercent r < 80)%Z)
  ∧ (verdict r = UNSAFE ↔ (safePercent r < 50)%Z).
Proof.
  unfold conclude. simpl.
  destruct (Z.ltb_spec (Z.max 0 (100 - Z.min 100 risk)) 80);
    destruct (Z.ltb_spec (Z.max 0 (100 - Z.min 100 risk)) 50);
    split_and!; split; (done || lia).
Qed.

(** ** Normalization *)

Lemma split_head sep s : split sep s !! 0 = Some (prefix_before sep s).
Proof.
  induction s as [|c t IH]; simpl; [done|].
  destruct (sep c); [done|].
  destruct (split sep t) as [|piece rest]; [done|].
  simpl in *. by injection IH as ->.
Qed.

Lemma startsWith_app s p q :
  startsWith s (p ++ q) = startsWith s p && startsWith (drop (length p) s) q.
Proof.
  revert s. induction p as [|c p IH]; intros s; simpl.
  - by destruct q, s.
  - destruct s as [|d s]; [done|]. simpl. by rewrite IH, andb_assoc.
Qed.

Lemma replace_www_spec s : replace_www s = strip_leading (js "www.") s.
Proof.
  unfold replace_www, strip_leading, stripPrefix.
  by destruct (startsWith s (js "www.")).
Qed.

Lemma replace_scheme_spec s : replace_scheme s = strip_scheme_spec s.
Proof.
  unfold replace_scheme, match_scheme.
  change (strip_scheme_spec s) with
    (if startsWith s (js "http" ++ js "://")
     then drop (length (js "http") + 3) s
     else if startsWith s (js "http" ++ js "s://")
          then drop (length (js "http") + 4) s
          else s).
  rewrite !startsWith_app, <- !drop_drop. unfold stripPrefix.
  destruct (startsWith s (js "http")); [|done].
  generalize (drop (length (js "http")) s). intros r.
  cbv [mbind option_bind andb].
  destruct r as [|c r]; [done|].
  change (js "s") with [115%N]. change (js "://") with (58%N :: js "//").
  change (js "s://") with (115%N :: 58%N :: js "//").
  simpl startsWith. simpl length. simpl drop.
  destruct (N.eqb_spec c 115) as [Hs|Hs]; destruct (N.eqb_spec c 58) as [Hc|Hc];
    try (subst; discriminate); simpl.
  - destruct r as [|c' r]; [done|]. simpl.
    destruct (c' =? 58)%N; [|done]. simpl.
    by destruct (startsWith r (js "//")).
  - by destruct (startsWith r (js "//")).
  - done.
Qed.

(** ** The analyzer *)

Section AnalyzerProperties.

Variable toLowerCase : jsstring → jsstring.

Local Abbreviation analyze := (analyzeURL toLowerCase).
Local Abbreviation derive := (forms toLowerCase).

(** The comparison forms are the ones the normalizer of the
    specification yields, and the host always exists. *)
Lemma forms_normalize s :
  derive s = (let '(t, l, c, h) := normalize_spec toLowerCase s in
              (t, l, c, Some h)).
Proof.
  unfold forms, normalize_spec.
  by rewrite split_head, replace_www_spec, replace_scheme_spec.
Qed.

Lemma forms_host s : ∃ url lower clean host,
  derive s = (url, lower, clean, Some host).
Proof.
  rewrite forms_normalize.
  destruct (normalize_spec toLowerCase s) as [[[t l] c] h]. eauto.
Qed.

(** The analyzer never fails; its result is computed from the rules
    that fire on the comparison forms. *)
Lemma analyzeURL_fired s url lower clean host :
  derive s = (url, lower, clean, Some host) →
  analyze s
  = Some (conclude (total_weight (fired (rules url lower host)))
                   (List.map Rule.msg (fired (rules url lower host)))).
Proof.
  unfold forms, analyzeURL. intros [= <- <- _ ->].
  cbv [mbind option_bind].
  by rewrite forEach_fired by apply rules_checks_total.
Qed.

Lemma fired_weight_nonneg url lower host :
  (0 ≤ total_weight (fired (rules url lower host)))%Z.
Proof. apply total_weight_nonneg, Forall_fired, rules_weights_positive. Qed.

(** C1. For every string, the score is the sum of the weights of the
    rules whose predicate is true, clamped at 100; it lies between 0 and
    100, and safePercent is exactly 100 minus the score. *)
Theorem score_clamped_sum s :
  ∃ url lower clean host r,
    derive s = (url, lower, clean, Some host)
    ∧ analyze s = Some r
    ∧ score r = Z.min 100 (total_weight (fired (rules url lower host)))
    ∧ (0 ≤ score r ≤ 100)%Z
    ∧ (safePercent r = 100 - score r)%Z
    ∧ (safePercent r + score r = 100)%Z.
Proof.
  destruct (forms_host s) as (url & lower & clean & host & Hf).
  exists url, lower, clean, host. eexists.
  split; [done|]. split; [by apply (analyzeURL_fired s url lower clean)|].
  pose proof (fired_weight_nonneg url lower host) as Hw.
  destruct (conclude_score _ (List.map Rule.msg (fired (rules url lower host)))
              Hw) as (Hs & Hr & Hp).
  split_and!; (done || lia).
Qed.

(** C7. For every string, the findings are the messages of the rules
    whose predicate is true, one each, in catalogue order, and nothing
    else; their number is the number of fired rules and at most the
    number of rules of the catalogue, 79. *)
Theorem findings_are_fired_messages s :
  ∃ url lower clean host r,
    derive s = (url, lower, clean, Some host)
    ∧ analyze s = Some r
    ∧ findings r = List.map Rule.msg (List.filter fires (rules url lower host))
    ∧ length (findings r) = length (List.filter fires (rules url lower host))
    ∧ length (findings r) ≤ length (rules url lower host)
    ∧ length (rules url lower host) = 79.
Proof.
  destruct (forms_host s) as (url & lower & clean & host & Hf).
  exists url, lower, clean, host. eexists.
  split; [done|]. split; [by apply (analyzeURL_fired s url lower clean)|].
  rewrite conclude_findings, length_map. split_and!; [done|done| |].
  - apply fired_length_le.
  - apply rules_length.
Qed.

(** C10. For every string, empty findings come with verdict SAFE, score
    0 and safePercent 100; a verdict other than SAFE comes with at least
    one finding; every rule has a strictly positive weight, and the
    findings are empty exactly when the total before clamping is 0. *)
Theorem empty_findings_safe s :
  ∃ url lower clean host r,
    derive s = (url, lower, clean, Some host)
    ∧ analyze s = Some r
    ∧ (findings r = [] →
       verdict r = SAFE ∧ score r = 0%Z ∧ safePercent r = 100%Z)
    ∧ (verdict r ≠ SAFE → findings r ≠ [])
    ∧ Forall (λ rule, (0 < Rule.score rule)%Z) (rules url lower host)
    ∧ (findings r = [] ↔ total_weight (fired (rules url lower host)) = 0%Z).
Proof.
  destruct (forms_host s) as (url & lower & clean & host & Hf).
  exists url, lower, clean, host. eexists.
  split; [done|]. split; [by apply (analyzeURL_fired s url lower clean)|].
  rewrite conclude_findings.
  pose proof (rules_weights_positive url lower host) as Hpos.
  pose proof (total_weight_zero _ (Forall_fired _ _ Hpos)) as Hzero.
  assert (Hnil : List.map Rule.msg (fired (rules url lower host)) = []
                 ↔ fired (rules url lower host) = []).
  { split; [apply map_eq_nil|by intros ->]. }
  assert (Hsafe : List.map Rule.msg (fired (rules url lower host)) = [] →
                  verdict (conclude (total_weight (fired (rules url lower host)))
                             (List.map Rule.msg (fired (rules url lower host))))
                  = SAFE).
  { intros ->%Hnil%Hzero. reflexivity. }
  split_and!; [|by intros ? ?%Hsafe|done|by rewrite Hnil, Hzero].
  intros Hfs. split; [by apply Hsafe|].
  apply Hnil, Hzero in Hfs. rewrite Hfs. split; reflexivity.
Qed.

(** C8. For every string, the analyzer works on the forms obtained by
    trimming, lower-casing the result, stripping one optional leading
    [http://] or [https://], stripping one optional leading [www.], and
    taking as host the prefix that ends at the first ['/'], ['?'] or
    ['#'] (the whole remainder when there is none); the derivation
    always yields a host. *)
Theorem normalization_order s :
  let '(trimmed, lower, clean, host) := normalize_spec toLowerCase s in
  derive s = (trimmed, lower, clean, Some host)
  ∧ analyze s = ('(risk, found) ← forEach (rules trimmed lower host) (0%Z, []);
                 Some (conclude risk found)).
Proof.
  pose proof (forms_normalize s) as Hf.
  destruct (normalize_spec toLowerCase s) as [[[t l] c] h] eqn:Hn.
  split; [done|].
  unfold forms in Hf. injection Hf as <- <- _ Hh.
  unfold analyzeURL. rewrite Hh. cbv [mbind option_bind]. reflexivity.
Qed.

End AnalyzerProperties.

(** ** The encoded-redirect rule *)

Lemma total_weight_app l1 l2 :
  total_weight (l1 ++ l2) = (total_weight l1 + total_weight l2)%Z.
Proof. induction l1 as [|r l1 IH]; simpl; [done|]. rewrite IH. lia. Qed.

Lemma startsWith_nil s : startsWith s [] = true.
Proof. by destruct s. Qed.

Lemma split_no_separator c s :
  includes s [c] = false → split (N.eqb c) s = [s].
Proof.
  induction s as [|d t IH]; [done|]. simpl.
  rewrite startsWith_nil, andb_true_r, (N.eqb_sym c d).
  destruct (d =? c)%N; [done|]. simpl. intros H. by rewrite (IH H).
Qed.

Lemma span_all p s : forallb p s = true → span p s = (s, []).
Proof.
  induction s as [|c t IH]; [done|]. simpl.
  destruct (p c); [|done]. simpl. intros H. by rewrite (IH H).
Qed.

Lemma looksEncoded_base64 s :
  12 ≤ length s → forallb isBase64 s = true → looksEncoded s = true.
Proof.
  intros Hlen Hall. unfold looksEncoded, test_base64.
  rewrite (span_all _ _ Hall). by apply Nat.leb_le in Hlen as ->.
Qed.

Lemma encodedRule_in_rules url lower host :
  encodedRule lower ∈ rules url lower host.
Proof.
  unfold rules. do 7 (apply elem_of_app; right).
  apply elem_of_app; left. by apply list_elem_of_singleton.
Qed.

Lemma fired_elem r rs : r ∈ rs → fires r = true → r ∈ fired rs.
Proof.
  intros Hin Hf. apply list_elem_of_In, filter_In.
  split; [by apply list_elem_of_In|done].
Qed.

(** ** Scenarios *)

Example levenshtein_kitten_sitting :
  levenshtein (js "kitten") (js "sitting") = Some 3.
Proof. by vm_compute. Qed.

(** A host of six units can be within distance 2 of a brand. *)
Example levenshtein_goo_gl : levenshtein (js "goo.gl") (js "google") = Some 2.
Proof. by vm_compute. Qed.

Section Scenarios.

Variable toLowerCase : jsstring → jsstring.

(** On ASCII-only strings the runtime lower-cases unit by unit. *)
Hypothesis toLowerCase_ascii :
  ∀ s, forallb isAscii s = true → toLowerCase s = asciiLowerCase s.

Local Abbreviation analyze := (analyzeURL toLowerCase).
Local Abbreviation derive := (forms toLowerCase).

Lemma analyzeURL_ascii s :
  forallb isAscii (trim s) = true → analyze s = analyzeURL asciiLowerCase s.
Proof.
  intros H. unfold analyzeURL. rewrite (toLowerCase_ascii _ H). reflexivity.
Qed.

Lemma forms_ascii s :
  forallb isAscii (trim s) = true → derive s = forms asciiLowerCase s.
Proof.
  intros H. unfold forms. rewrite (toLowerCase_ascii _ H). reflexivity.
Qed.

(** C2. For every string the verdict is SAFE exactly when safePercent is
    at least 80, SUSPICIOUS exactly when it is at least 50 and below 80,
    UNSAFE exactly when it is below 50.  Some input of length 85 fires
    the Long URL rule only: score 20, safePercent 80, verdict SAFE. *)
Theorem verdict_thresholds :
  (∀ s, ∃ r, analyze s = Some r
             ∧ (verdict r = SAFE ↔ (80 ≤ safePercent r)%Z)
             ∧ (verdict r = SUSPICIOUS ↔ (50 ≤ safePercent r < 80)%Z)
             ∧ (verdict r = UNSAFE ↔ (safePercent r < 50)%Z))
  ∧ (∃ s url lower clean host,
        length s = 85
        ∧ derive s = (url, lower, clean, Some host)
        ∧ List.filter fires (rules url lower host) = [longRule url]
        ∧ analyze s = Some {| score := 20; safePercent := 80;
                              verdict := SAFE;
                              findings := [js "URL is unusually long."] |}).
Proof.
  split.
  - intros s. destruct (forms_host toLowerCase s)
      as (url & lower & clean & host & Hf).
    eexists. split; [by apply (analyzeURL_fired _ s url lower clean)|].
    apply conclude_verdict.
  - exists long_input, long_input, long_input,
      (drop 7 long_input), (js "example.org").
    rewrite forms_ascii, analyzeURL_ascii by (by vm_compute).
    split_and!; by vm_compute.
Qed.

(** C5. On [http://www.paypa1-login-secure-verify.com] the host has 3
    hyphens, so the hyphen rule does not fire; the cluster login+verify
    (50), the keywords login, verify and secure (25 each) and the digit
    1 (45) fire, for a total of 170 before clamping; the result is score
    100, safePercent 0, verdict UNSAFE. *)
Theorem paypa1_scenario :
  derive paypa1_input
  = (paypa1_input, paypa1_input, paypa1_host, Some paypa1_host)
  ∧ count_matches 45 paypa1_host = 3
  ∧ fires (hyphenRule paypa1_host) = false
  ∧ List.filter fires (rules paypa1_input paypa1_input paypa1_host)
    = [ clusterRule paypa1_input [js "login"; js "verify"];
        wordRule paypa1_host (js "login");
        wordRule paypa1_host (js "verify");
        wordRule paypa1_host (js "secure");
        digitRule paypa1_host {| bad := js "1"; good := js "l" |} ]
  ∧ total_weight (fired (rules paypa1_input paypa1_input paypa1_host))
    = (25 + 25 + 25 + 50 + 45)%Z
  ∧ (170 ≤ total_weight (fired (rules paypa1_input paypa1_input paypa1_host)))%Z
  ∧ analyze paypa1_input
    = Some {| score := 100; safePercent := 0; verdict := UNSAFE;
              findings := paypa1_findings |}.
Proof.
  rewrite forms_ascii, analyzeURL_ascii by (by vm_compute).
  split_and!; by vm_compute.
Qed.

(** C6. The analyzer is total: every string, whatever it contains,
    yields a well-formed result.  On the empty string no rule fires and
    the result is score 0, safePercent 100, verdict SAFE, no finding. *)
Theorem analyzeURL_total :
  (∀ s, ∃ r, analyze s = Some r ∧ well_formed r)
  ∧ (∃ url lower clean host,
        derive [] = (url, lower, clean, Some host)
        ∧ List.filter fires (rules url lower host) = [])
  ∧ analyze [] = Some {| score := 0; safePercent := 100; verdict := SAFE;
                         findings := [] |}.
Proof.
  split_and!.
  - intros s. destruct (forms_host toLowerCase s)
      as (url & lower & clean & host & Hf).
    eexists. split; [by apply (analyzeURL_fired _ s url lower clean)|].
    pose proof (fired_weight_nonneg url lower host) as Hw.
    destruct (conclude_score _ (List.map Rule.msg (fired (rules url lower host)))
                Hw) as (Hs & Hr & Hp).
    unfold well_formed. lia.
  - exists [], [], [], []. rewrite forms_ascii by done.
    split; by vm_compute.
  - rewrite analyzeURL_ascii by done. by vm_compute.
Qed.

(** C9. When the trimmed, lower-cased input contains no ['='], the
    encoded-redirect rule tests that whole string.  So an input whose
    trimmed, lower-cased form has at least 12 units, all in
    [[A-Za-z0-9+/]], and no ['='], fires the rule: its message is among
    the findings and its weight 40 is part of the total that is clamped
    into the score. *)
Theorem encoded_redirect_whole_input s :
  let lower := toLowerCase (trim s) in
  includes lower (js "=") = false →
  Rule.check (encodedRule lower) tt = Some (looksEncoded lower)
  ∧ (12 ≤ length lower → forallb isBase64 lower = true →
     ∃ url clean host r before after,
       derive s = (url, lower, clean, Some host)
       ∧ analyze s = Some r
       ∧ fires (encodedRule lower) = true
       ∧ fired (rules url lower host) = before ++ encodedRule lower :: after
       ∧ Rule.score (encodedRule lower) = 40%Z
       ∧ score r = Z.min 100 (total_weight before + 40 + total_weight after)
       ∧ (40 ≤ score r)%Z
       ∧ js "Encoded redirect detected." ∈ findings r).
Proof.
  intros lower Hno.
  assert (Hcheck : Rule.check (encodedRule lower) tt
                   = Some (looksEncoded lower)).
  { cbn [Rule.check encodedRule].
    change (js "=") with [61%N] in Hno.
    by rewrite (split_no_separator _ _ Hno). }
  split; [done|]. intros Hlen Hall.
  destruct (forms_host toLowerCase s) as (url & lower' & clean & host & Hf).
  assert (lower' = lower) as ->
    by (unfold forms in Hf; injection Hf; intros; subst lower; congruence).
  assert (Hfires : fires (encodedRule lower) = true).
  { unfold fires. by rewrite Hcheck, looksEncoded_base64. }
  destruct (list_elem_of_split (fired (rules url lower host)) (encodedRule lower))
    as (before & after & Hsplit).
  { apply fired_elem; [apply encodedRule_in_rules|done]. }
  pose proof (rules_weights_positive url lower host) as Hpos.
  apply Forall_fired in Hpos. rewrite Hsplit in Hpos.
  apply Forall_app in Hpos as [Hb Ha%Forall_cons_1]. destruct Ha as [_ Ha].
  apply total_weight_nonneg in Hb, Ha.
  exists url, clean, host. eexists. exists before, after.
  split; [done|]. split; [by apply (analyzeURL_fired _ s url lower clean)|].
  rewrite Hsplit, total_weight_app, map_app. cbn [conclude score findings].
  split_and!; try done.
  - cbn [total_weight fold_right]. fold (total_weight after).
    change (Rule.score (encodedRule lower)) with 40%Z. lia.
  - cbn [total_weight fold_right]. fold (total_weight after).
    change (Rule.score (encodedRule lower)) with 40%Z. lia.
  - apply elem_of_app. right. apply elem_of_cons. by left.
Qed.

(** On [https://www.google.com] no rule fires. *)
Example google_scenario :
  analyze (js "https://www.google.com")
  = Some {| score := 0; safePercent := 100; verdict := SAFE; findings := [] |}.
Proof. rewrite analyzeURL_ascii by (by vm_compute). by vm_compute. Qed.

(** C3. On [http://go0gle.com] the host is [go0gle.com]; its distance
    to [google] is 5, the four units of [.com] included, so the
    similarity rule does not fire.  Only the digit rule for ['0'] does:
    score 45, safePercent 55, verdict SUSPICIOUS. *)
Theorem go0gle_scenario :
  derive go0gle_input
  = (go0gle_input, go0gle_input, go0gle_host, Some go0gle_host)
  ∧ levenshtein go0gle_host (js "google") = Some 5
  ∧ endsWith go0gle_host (js "google" ++ js ".com") = false
  ∧ fires (similarityRule go0gle_host (js "google")) = false
  ∧ List.filter fires (rules go0gle_input go0gle_input go0gle_host)
    = [digitRule go0gle_host {| bad := js "0"; good := js "o" |}]
  ∧ analyze go0gle_input
    = Some {| score := 45; safePercent := 55; verdict := SUSPICIOUS;
              findings := [js "Typosquatting substitution: '0' for 'o'."] |}.
Proof.
  rewrite forms_ascii, analyzeURL_ascii by (by vm_compute).
  split_and!; by vm_compute.
Qed.

End Scenarios.

(** ** The scenarios under ASCII lower-casing *)

Lemma verdict_thresholds_witness :
  (∀ s, forallb isAscii s = true → asciiLowerCase s = asciiLowerCase s)
  ∧ (∀ s, ∃ r, analyzeURL asciiLowerCase s = Some r
               ∧ (verdict r = SAFE ↔ (80 ≤ safePercent r)%Z)
               ∧ (verdict r = SUSPICIOUS ↔ (50 ≤ safePercent r < 80)%Z)
               ∧ (verdict r = UNSAFE ↔ (safePercent r < 50)%Z))
  ∧ (∃ s url lower clean host,
        length s = 85
        ∧ forms asciiLowerCase s = (url, lower, clean, Some host)
        ∧ List.filter fires (rules url lower host) = [longRule url]
        ∧ analyzeURL asciiLowerCase s
          = Some {| score := 20; safePercent := 80; verdict := SAFE;
                    findings := [js "URL is unusually long."] |}).
Proof.
  split; [reflexivity|].
  apply (verdict_thresholds asciiLowerCase). reflexivity.
Defined.

Lemma paypa1_scenario_witness :
  (∀ s, forallb isAscii s = true → asciiLowerCase s = asciiLowerCase s)
  ∧ forms asciiLowerCase paypa1_input
    = (paypa1_input, paypa1_input, paypa1_host, Some paypa1_host)
  ∧ count_matches 45 paypa1_host = 3
  ∧ fires (hyphenRule paypa1_host) = false
  ∧ List.filter fires (rules paypa1_input paypa1_input paypa1_host)
    = [ clusterRule paypa1_input [js "login"; js "verify"];
        wordRule paypa1_host (js "login");
        wordRule paypa1_host (js "verify");
        wordRule paypa1_host (js "secure");
        digitRule paypa1_host {| bad := js "1"; good := js "l" |} ]
  ∧ total_weight (fired (rules paypa1_input paypa1_input paypa1_host))
    = (25 + 25 + 25 + 50 + 45)%Z
  ∧ (170 ≤ total_weight (fired (rules paypa1_input paypa1_input paypa1_host)))%Z
  ∧ analyzeURL asciiLowerCase paypa1_input
    = Some {| score := 100; safePercent := 0; verdict := UNSAFE;
              findings := paypa1_findings |}.
Proof.
  split; [reflexivity|].
  apply (paypa1_scenario asciiLowerCase). reflexivity.
Defined.

Lemma analyzeURL_total_witness :
  (∀ s, forallb isAscii s = true → asciiLowerCase s = asciiLowerCase s)
  ∧ (∀ s, ∃ r, analyzeURL asciiLowerCase s = Some r ∧ well_formed r)
  ∧ (∃ url lower clean host,
        forms asciiLowerCase [] = (url, lower, clean, Some host)
        ∧ List.filter fires (rules url lower host) = [])
  ∧ analyzeURL asciiLowerCase []
    = Some {| score := 0; safePercent := 100; verdict := SAFE;
              findings := [] |}.
Proof.
  split; [reflexivity|].
  apply (analyzeURL_total asciiLowerCase). reflexivity.
Defined.

Lemma encoded_redirect_whole_input_witness :
  let s := js "abcdefghijkl" in
  let lower := asciiLowerCase (trim s) in
  includes lower (js "=") = false
  ∧ 12 ≤ length lower
  ∧ forallb isBase64 lower = true
  ∧ Rule.check (encodedRule lower) tt = Some (looksEncoded lower)
  ∧ ∃ url clean host r before after,
      forms asciiLowerCase s = (url, lower, clean, Some host)
      ∧ analyzeURL asciiLowerCase s = Some r
      ∧ fires (encodedRule lower) = true
      ∧ fired (rules url lower host) = before ++ encodedRule lower :: after
      ∧ Rule.score (encodedRule lower) = 40%Z
      ∧ score r = Z.min 100 (total_weight before + 40 + total_weight after)
      ∧ (40 ≤ score r)%Z
      ∧ js "Encoded redirect detected." ∈ findings r.
Proof.
  intros s lower.
  assert (Hno : includes lower (js "=") = false) by (vm_compute; reflexivity).
  assert (Hlen : 12 ≤ length lower) by (vm_compute; lia).
  assert (Hall : forallb isBase64 lower = true) by (vm_compute; reflexivity).
  destruct (encoded_redirect_whole_input asciiLowerCase s Hno) as [Hcheck Hfire].
  split; [exact Hno|]. split; [exact Hlen|]. split; [exact Hall|].
  split; [exact Hcheck|]. exact (Hfire Hlen Hall).
Defined.

Lemma go0gle_scenario_witness :
  (∀ s, forallb isAscii s = true → asciiLowerCase s = asciiLowerCase s)
  ∧ forms asciiLowerCase go0gle_input
    = (go0gle_input, go0gle_input, go0gle_host, Some go0gle_host)
  ∧ levenshtein go0gle_host (js "google") = Some 5
  ∧ endsWith go0gle_host (js "google" ++ js ".com") = false
  ∧ fires (similarityRule go0gle_host (js "google")) = false
  ∧ List.filter fires (rules go0gle_input go0gle_input go0gle_host)
    = [digitRule go0gle_host {| bad := js "0"; good := js "o" |}]
  ∧ analyzeURL asciiLowerCase go0gle_input
    = Some {| score := 45; safePercent := 55; verdict := SUSPICIOUS;
              findings := [js "Typosquatting substitution: '0' for 'o'."] |}.
Proof.
  split; [reflexivity|].
  apply (go0gle_scenario asciiLowerCase). reflexivity.
Defined.

(** * Further properties of the code *)

(** ** [levenshtein] as a metric *)

Lemma lev_le_max a b : lev a b ≤ Nat.max (length a) (length b).
Proof.
  revert b. induction a as [|x a IH]; intros b.
  - rewrite lev_nil_l. simpl. lia.
  - destruct b as [|y b]; [rewrite lev_nil_r; simpl; lia|].
    lev_step. pose proof (IH b). pose proof (cost_le_1 x y). lia.
Qed.

Lemma lev_triangle a b c : lev a c ≤ lev a b + lev b c.
Proof.
  apply lev_lower_bound.
  eapply edits_trans; apply lev_upper_bound.
Qed.

Lemma lev_zero a b : lev a b = 0 ↔ a = b.
Proof.
  split; [|intros ->; apply lev_refl].
  intros H. pose proof (lev_upper_bound a b) as He. rewrite H in He.
  by inversion He.
Qed.

Lemma lev_cons_same x a b : lev (x :: a) (x :: b) = lev a b.
Proof.
  lev_step. rewrite cost_refl.
  pose proof (lev_uncons_l x a b).
  pose proof (lev_uncons_l x b a) as H2.
  rewrite (lev_sym b a), (lev_sym (x :: b) a) in H2. lia.
Qed.

Lemma lev_app_same_l p a b : lev (p ++ a) (p ++ b) = lev a b.
Proof. induction p as [|x p IH]; [done|]. simpl. by rewrite lev_cons_same. Qed.

Lemma lev_app_same_r q a b : lev (a ++ q) (b ++ q) = lev a b.
Proof.
  rewrite <- (lev_rev (a ++ q)), !rev_app_distr, lev_app_same_l. apply lev_rev.
Qed.

(** X1. The distance computed by [levenshtein] obeys the triangle
    inequality. *)
Theorem levenshtein_triangle a b c :
  ∃ dab dbc dac,
    levenshtein a b = Some dab ∧ levenshtein b c = Some dbc
    ∧ levenshtein a c = Some dac ∧ dac ≤ dab + dbc.
Proof.
  exists (lev a b), (lev b c), (lev a c).
  rewrite !levenshtein_lev. split_and!; try done. apply lev_triangle.
Qed.

(** X2. The distance is at least the difference of the two lengths and at
    most the larger of them. *)
Theorem levenshtein_length_bounds a b :
  ∃ d, levenshtein a b = Some d
       ∧ length a - length b ≤ d
       ∧ length b - length a ≤ d
       ∧ d ≤ Nat.max (length a) (length b).
Proof.
  exists (lev a b). rewrite levenshtein_lev.
  pose proof (lev_length_diff a b).
  pose proof (lev_length_diff b a) as H2. rewrite (lev_sym b a) in H2.
  pose proof (lev_le_max a b). split_and!; (done || lia).
Qed.

(** X3. The distance is 0 exactly for equal strings. *)
Theorem levenshtein_zero_iff_equal a b : levenshtein a b = Some 0 ↔ a = b.
Proof.
  rewrite levenshtein_lev. split.
  - intros [= H]. by apply lev_zero.
  - intros ->. by rewrite lev_refl.
Qed.

(** X4. A common prefix and a common suffix do not change the distance. *)
Theorem levenshtein_common_affixes p q a b :
  levenshtein (p ++ a ++ q) (p ++ b ++ q) = levenshtein a b.
Proof. by rewrite !levenshtein_lev, lev_app_same_l, lev_app_same_r. Qed.

(** ** The pattern helpers *)

Lemma in_range_spec lo hi c : in_range lo hi c = true ↔ (lo ≤ c ≤ hi)%N.
Proof. unfold in_range. rewrite andb_true_iff, !N.leb_le. done. Qed.

Lemma isHex_isBase64 c : isHex c = true → isBase64 c = true.
Proof.
  unfold isHex, isBase64, isDigit, isUpper, isLower.
  rewrite !orb_true_iff, !in_range_spec, !N.eqb_eq. lia.
Qed.

Lemma isBase64_not_eq c : isBase64 c = true → c ≠ 61%N.
Proof. intros H ->. by vm_compute in H. Qed.

Lemma forallb_impl (p q : N → bool) s :
  (∀ c, p c = true → q c = true) → forallb p s = true → forallb q s = true.
Proof.
  intros Hpq. induction s as [|c t IH]; [done|]. simpl.
  rewrite !andb_true_iff. intros [Hc Ht]. auto.
Qed.

Lemma span_spec p s :
  ∃ run rest, span p s = (run, rest) ∧ s = run ++ rest
              ∧ forallb p run = true
              ∧ (rest = [] ∨ ∃ c rest', rest = c :: rest' ∧ p c = false).
Proof.
  induction s as [|c t (run & rest & Hs & -> & Hrun & Hrest)]; simpl.
  - exists [], []. auto.
  - destruct (p c) eqn:Hc.
    + rewrite Hs. exists (c :: run), rest. simpl. rewrite Hc. auto.
    + exists [], (c :: run ++ rest). split_and!; try done. right. eauto.
Qed.

Lemma span_app p u v :
  forallb p u = true →
  (v = [] ∨ ∃ c v', v = c :: v' ∧ p c = false) →
  span p (u ++ v) = (u, v).
Proof.
  intros Hu Hv. induction u as [|c u IH]; simpl in *.
  - destruct Hv as [->|(c & v' & -> & Hc)]; [done|]. simpl. by rewrite Hc.
  - apply andb_true_iff in Hu as [-> Hu]. by rewrite IH.
Qed.

Lemma test_hex_base64 str : test_hex str = true → test_base64 str = true.
Proof.
  unfold test_hex, test_base64. intros [Hlen Hall]%andb_true_iff.
  rewrite (span_all isBase64 str) by (by eapply forallb_impl, Hall; apply isHex_isBase64).
  apply Nat.leb_le in Hlen. apply andb_true_iff. split; [|done].
  apply Nat.leb_le. lia.
Qed.

(** X5. The hexadecimal alternative of [looksEncoded] never decides: a
    string it accepts is already accepted by the base64 alternative. *)
Theorem looksEncoded_hex_redundant str : looksEncoded str = test_base64 str.
Proof.
  unfold looksEncoded. destruct (test_hex str) eqn:Hh.
  - by rewrite (test_hex_base64 _ Hh).
  - apply orb_false_r.
Qed.

(** What may follow the run of class units: nothing, or one or two ['=']. *)
Lemma padding_spec (rest : jsstring) :
  match rest with
  | [] => true
  | [61%N] => true
  | [61%N; 61%N] => true
  | _ => false
  end = true
  ↔ ∃ k, k ≤ 2 ∧ rest = repeat 61%N k.
Proof.
  split.
  - intros H.
    repeat match type of H with
           | context [match ?x with _ => _ end] => destruct x; try discriminate H
           end.
    all: first [ exists 0; split; [lia|reflexivity]
               | exists 1; split; [lia|reflexivity]
               | exists 2; split; [lia|reflexivity] ].
  - intros (k & Hk & ->). by destruct k as [|[|[|k]]]; [| | |lia].
Qed.

(** X6. [looksEncoded] accepts exactly the strings made of at least 12
    units of [[A-Za-z0-9+/]] followed by at most two ['=']; in particular
    nothing shorter than 12 units. *)
Theorem looksEncoded_iff str :
  looksEncoded str = true
  ↔ ∃ body k, str = body ++ repeat 61%N k ∧ k ≤ 2
              ∧ 12 ≤ length body ∧ forallb isBase64 body = true.
Proof.
  unfold looksEncoded. split.
  - intros H. assert (Hb : test_base64 str = true).
    { apply orb_true_iff in H as [H|H]; [done|by apply test_hex_base64]. }
    clear H. unfold test_base64 in Hb.
    destruct (span_spec isBase64 str) as (run & rest & Hs & -> & Hrun & _).
    rewrite Hs in Hb. apply andb_true_iff in Hb as [Hlen%Nat.leb_le Hrest].
    apply padding_spec in Hrest as (k & Hk & ->).
    by exists run, k.
  - intros (body & k & -> & Hk & Hlen & Hall). apply orb_true_iff. left.
    unfold test_base64. rewrite (span_app isBase64 body (repeat 61%N k) Hall).
    + apply andb_true_iff. split; [by apply Nat.leb_le|].
      apply padding_spec. eauto.
    + destruct k; [by left|]. right. simpl. eauto.
Qed.

(** X7. [hasHomoglyphs] is true exactly when some unit lies between
    U+0370 and U+04FF: the two ranges of the pattern are adjacent. *)
Theorem hasHomoglyphs_iff str :
  hasHomoglyphs str = true ↔ ∃ c, c ∈ str ∧ (880 ≤ c ≤ 1279)%N.
Proof.
  unfold hasHomoglyphs. rewrite existsb_exists. split.
  - intros (c & Hin & Hc). exists c. split; [by apply list_elem_of_In|].
    rewrite orb_true_iff, !in_range_spec in Hc. lia.
  - intros (c & Hin & Hc). exists c. split; [by apply list_elem_of_In|].
    rewrite orb_true_iff, !in_range_spec. lia.
Qed.

(** ** Splitting and joining *)

Lemma includes_singleton s c : includes s [c] = existsb (λ d, d =? c)%N s.
Proof.
  induction s as [|d t IH]; [done|]. simpl.
  by rewrite startsWith_nil, andb_true_r, IH.
Qed.

Lemma split_nonempty sep s : split sep s ≠ [].
Proof.
  destruct s as [|c t]; [done|]. simpl.
  destruct (sep c); [done|]. by destruct (split sep t).
Qed.

(** Splitting around a separator splits both sides. *)
Lemma split_app_sep sep u d v :
  sep d = true → split sep (u ++ d :: v) = split sep u ++ split sep v.
Proof.
  intros Hd. induction u as [|c u IH]; simpl.
  - by rewrite Hd.
  - rewrite IH. destruct (sep c); [done|].
    pose proof (split_nonempty sep u). by destruct (split sep u).
Qed.

Lemma pop_app l1 l2 : l2 ≠ [] → pop (l1 ++ l2) = pop l2.
Proof.
  intros Hl2. induction l1 as [|x l1 IH]; [done|]. simpl.
  destruct (l1 ++ l2) eqn:E; [|done].
  by apply app_eq_nil in E as [_ ?].
Qed.

Lemma pop_singleton (x : jsstring) : pop [x] = Some x.
Proof. reflexivity. Qed.

(** The last occurrence of a unit that occurs. *)
Lemma last_occurrence c s :
  includes s [c] = true →
  ∃ pre p, s = pre ++ c :: p ∧ includes p [c] = false.
Proof.
  rewrite includes_singleton.
  induction s as [|d t IH]; [done|]. simpl.
  destruct (existsb (λ d0 : N, (d0 =? c)%N) t) eqn:Ht.
  - intros _. destruct IH as (pre & p & -> & Hp); [done|].
    by exists (d :: pre), p.
  - rewrite orb_false_r. intros ->%N.eqb_eq. exists [], t.
    by rewrite includes_singleton.
Qed.

(** [s.split(c).pop()] is what follows the last [c], or all of [s]. *)
Lemma pop_split c s :
  ∃ pre p, s = pre ++ p ∧ (pre = [] ∨ ∃ pre', pre = pre' ++ [c])
           ∧ includes p [c] = false
           ∧ pop (split (N.eqb c) s) = Some p.
Proof.
  destruct (includes s [c]) eqn:Hs.
  - destruct (last_occurrence c s Hs) as (pre & p & -> & Hp).
    exists (pre ++ [c]), p. rewrite <- app_assoc. split_and!; eauto.
    rewrite split_app_sep by apply N.eqb_refl.
    by rewrite pop_app, (split_no_separator _ _ Hp)
      by (by rewrite (split_no_separator _ _ Hp)).
  - exists [], s. split_and!; auto. by rewrite (split_no_separator _ _ Hs).
Qed.

Lemma looksEncoded_eq_base64 str : looksEncoded str = test_base64 str.
Proof.
  unfold looksEncoded. destruct (test_hex str) eqn:Hh.
  - by rewrite (test_hex_base64 _ Hh).
  - apply orb_false_r.
Qed.

(** Without ['='] in the string the optional padding cannot match. *)
Lemma looksEncoded_no_padding p :
  includes p [61%N] = false →
  looksEncoded p = (12 <=? length p) && forallb isBase64 p.
Proof.
  rewrite includes_singleton, looksEncoded_eq_base64. unfold test_base64.
  destruct (span_spec isBase64 p) as (run & rest & -> & -> & Hrun & Hrest).
  intros Hno. destruct Hrest as [->|(c & rest' & -> & Hc)].
  - by rewrite app_nil_r, Hrun.
  - rewrite forallb_app. simpl. rewrite Hc, andb_false_r, andb_false_r.
    apply andb_false_iff. right.
    rewrite existsb_app in Hno. simpl in Hno.
    apply orb_false_iff in Hno as [_ [Hne%N.eqb_neq _]%orb_false_iff].
    match goal with |- ?m = false => destruct m eqn:E end; [|done].
    apply (proj1 (padding_spec (c :: rest'))) in E as (k & _ & E).
    destruct k; [done|]. simpl in E. congruence.
Qed.

(** X8. The encoded-redirect rule looks at what follows the last ['='] of
    the lower-cased input (all of it when there is none).  That piece has
    no ['='], so the padding of the pattern never matches there: the rule
    fires exactly when the piece has at least 12 units, all of them in
    [[A-Za-z0-9+/]]. *)
Theorem encoded_rule_decides lower :
  ∃ pre p,
    lower = pre ++ p
    ∧ (pre = [] ∨ ∃ pre', pre = pre' ++ js "=")
    ∧ includes p (js "=") = false
    ∧ Rule.check (encodedRule lower) tt
      = Some ((12 <=? length p) && forallb isBase64 p).
Proof.
  destruct (pop_split 61%N lower) as (pre & p & Hl & Hpre & Hp & Hpop).
  exists pre, p. split_and!; try done.
  cbn [Rule.check encodedRule]. rewrite Hpop. simpl default.
  by rewrite looksEncoded_no_padding.
Qed.

(** X9. Splitting at a unit and joining with the same unit gives the
    string back; no piece contains the separator, and there is one piece
    more than there are separators. *)
Theorem split_join_round_trip c s :
  join [c] (split (N.eqb c) s) = s
  ∧ Forall (λ piece, includes piece [c] = false) (split (N.eqb c) s)
  ∧ length (split (N.eqb c) s) = S (count_matches c s).
Proof.
  split_and!.
  - induction s as [|d t IH]; [done|]. simpl.
    pose proof (split_nonempty (N.eqb c) t) as Hne.
    destruct (N.eqb_spec c d) as [->|Hcd].
    + simpl. destruct (split (N.eqb d) t) eqn:E; [done|]. by rewrite IH.
    + destruct (split (N.eqb c) t) as [|piece rest] eqn:E; [done|].
      simpl in *. destruct rest; by rewrite <- IH.
  - induction s as [|d t IH]; [by repeat constructor|]. simpl.
    pose proof (split_nonempty (N.eqb c) t) as Hne.
    destruct (N.eqb_spec c d) as [->|Hcd].
    + by constructor.
    + destruct (split (N.eqb c) t) as [|piece rest] eqn:E; [done|].
      inversion_clear IH as [|? ? Hp Hr]. constructor; [|done].
      simpl. rewrite startsWith_nil, andb_true_r, Hp, orb_false_r.
      apply N.eqb_neq. congruence.
  - unfold count_matches, match_all.
    induction s as [|d t IH]; [done|]. simpl.
    pose proof (split_nonempty (N.eqb c) t) as Hne.
    destruct (N.eqb_spec c d) as [->|Hcd].
    + simpl. rewrite IH. destruct (List.filter (N.eqb d) t); simpl; by rewrite ?length_map.
    + destruct (split (N.eqb c) t) as [|piece rest] eqn:E; [done|].
      simpl in *. by rewrite IH.
Qed.

(** ** The similarity rule *)

(** X10. The similarity rule fires exactly when the distance between the
    host and the brand is at most 2: its test [!host.endsWith(b + ".com")]
    never changes the answer. *)
Theorem similarity_check_is_distance_test host b :
  ∃ d, levenshtein host b = Some d
       ∧ Rule.check (similarityRule host b) tt = Some (d <=? 2).
Proof.
  exists (lev host b). split; [apply levenshtein_lev|].
  cbn [Rule.check similarityRule].
  pose proof (levenshtein_lev host b) as Hlev. rewrite Hlev. simpl.
  destruct (Nat.leb_spec (lev host b) 2) as [Hle|_]; [|done].
  by rewrite (similarity_guard_vacuous host b _ Hlev Hle).
Qed.

(** X11. The similarity rule cannot fire when the lengths of host and
    brand differ by more than 2; so a host made of a name as long as the
    brand followed by a dot and a top-level domain never fires it. *)
Theorem similarity_needs_close_lengths host b :
  length b + 2 < length host ∨ length host + 2 < length b →
  fires (similarityRule host b) = false.
Proof.
  intros Hlen. unfold fires. cbn [Rule.check similarityRule].
  rewrite levenshtein_lev. simpl.
  pose proof (lev_length_diff host b).
  pose proof (lev_length_diff b host) as H2. rewrite (lev_sym b host) in H2.
  destruct (Nat.leb_spec (lev host b) 2) as [Hle|_]; [lia|done].
Qed.

Lemma similarity_needs_close_lengths_witness :
  (length (js "google") + 2 < length (js "go0gle.com")
   ∨ length (js "go0gle.com") + 2 < length (js "google"))
  ∧ fires (similarityRule (js "go0gle.com") (js "google")) = false.
Proof.
  assert (H : length (js "google") + 2 < length (js "go0gle.com")
              ∨ length (js "go0gle.com") + 2 < length (js "google"))
    by (left; vm_compute; lia).
  split; [exact H|].
  exact (similarity_needs_close_lengths (js "go0gle.com") (js "google") H).
Defined.

(** ** Totals and verdicts *)

Lemma fired_app l1 l2 : fired (l1 ++ l2) = fired l1 ++ fired l2.
Proof. apply filter_app. Qed.

Lemma total_weight_elem r rs :
  Forall (λ r, (0 < Rule.score r)%Z) rs → r ∈ rs →
  (Rule.score r ≤ total_weight rs)%Z.
Proof.
  induction 1 as [|r' rs Hr' Hrs IH]; [by intros ?%elem_of_nil|].
  pose proof (total_weight_nonneg _ Hrs).
  intros [->|Hin]%elem_of_cons; simpl; [lia|]. specialize (IH Hin). lia.
Qed.

Lemma total_weight_fired_le rs :
  Forall (λ r, (0 < Rule.score r)%Z) rs →
  (total_weight (fired rs) ≤ total_weight rs)%Z.
Proof.
  unfold fired. induction 1 as [|r rs Hr Hrs IH]; simpl; [done|].
  destruct (fires r); simpl; lia.
Qed.

Lemma conclude_verdict_by_risk risk fs :
  (0 ≤ risk)%Z →
  (verdict (conclude risk fs) = SAFE ↔ (risk ≤ 20)%Z)
  ∧ (verdict (conclude risk fs) = SUSPICIOUS ↔ (20 < risk ≤ 50)%Z)
  ∧ (verdict (conclude risk fs) = UNSAFE ↔ (50 < risk)%Z).
Proof.
  intros Hrisk. unfold conclude. cbn [verdict].
  destruct (Z.ltb_spec (Z.max 0 (100 - Z.min 100 risk)) 80);
    destruct (Z.ltb_spec (Z.max 0 (100 - Z.min 100 risk)) 50);
    split_and!; split; (done || lia).
Qed.

(** Everything before the last two rules weighs at least 25. *)
Lemma rules_shape url lower host :
  ∃ front,
    rules url lower host = front ++ [longRule url; subdomainRule host]
    ∧ Forall (λ r, (25 ≤ Rule.score r)%Z) front.
Proof.
  unfold rules. eexists. split.
  { rewrite !app_assoc. rewrite <- (app_assoc _ [longRule url]). reflexivity. }
  rewrite !Forall_app. split_and!;
    lazymatch goal with
    | |- Forall _ (List.map _ _) => apply List.Forall_map, Forall_forall; intros ? _
    | |- Forall _ [_] => apply Forall_singleton
    end; simpl; lia.
Qed.

Lemma total_weight_ge_25 rs :
  Forall (λ r, (25 ≤ Rule.score r)%Z) rs → rs ≠ [] → (25 ≤ total_weight rs)%Z.
Proof.
  intros H Hne. destruct H as [|r rs Hr Hrs]; [done|]. simpl.
  assert (0 ≤ total_weight rs)%Z; [|lia].
  clear Hne Hr. induction Hrs as [|r' rs' Hr' _ IH]; simpl; lia.
Qed.

Section MoreAnalyzerProperties.

Variable toLowerCase : jsstring → jsstring.

Local Abbreviation analyze := (analyzeURL toLowerCase).
Local Abbreviation derive := (forms toLowerCase).

(** X12. In terms of the total before clamping: the verdict is SAFE up to
    20, SUSPICIOUS above 20 and up to 50, UNSAFE above 50. *)
Theorem verdict_by_total s :
  ∃ url lower clean host r,
    derive s = (url, lower, clean, Some host)
    ∧ analyze s = Some r
    ∧ (verdict r = SAFE
       ↔ (total_weight (fired (rules url lower host)) ≤ 20)%Z)
    ∧ (verdict r = SUSPICIOUS
       ↔ (20 < total_weight (fired (rules url lower host)) ≤ 50)%Z)
    ∧ (verdict r = UNSAFE
       ↔ (50 < total_weight (fired (rules url lower host)))%Z).
Proof.
  destruct (forms_host toLowerCase s) as (url & lower & clean & host & Hf).
  exists url, lower, clean, host. eexists.
  split; [done|]. split; [by apply (analyzeURL_fired _ s url lower clean)|].
  apply conclude_verdict_by_risk, fired_weight_nonneg.
Qed.

(** X13. The verdict is SAFE exactly when no rule fires or the Long URL
    rule alone does: any other rule, and any two rules, lose it. *)
Theorem safe_iff_at_most_long_url s :
  ∃ url lower clean host r,
    derive s = (url, lower, clean, Some host)
    ∧ analyze s = Some r
    ∧ (verdict r = SAFE
       ↔ fired (rules url lower host) = []
         ∨ fired (rules url lower host) = [longRule url]).
Proof.
  destruct (forms_host toLowerCase s) as (url & lower & clean & host & Hf).
  exists url, lower, clean, host. eexists.
  split; [done|]. split; [by apply (analyzeURL_fired _ s url lower clean)|].
  destruct (conclude_verdict_by_risk
              (total_weight (fired (rules url lower host)))
              (List.map Rule.msg (fired (rules url lower host)))
              (fired_weight_nonneg url lower host)) as (-> & _).
  destruct (rules_shape url lower host) as (front & -> & Hfront).
  rewrite fired_app.
  assert (Hff : Forall (λ r, (25 ≤ Rule.score r)%Z) (fired front))
    by by apply Forall_fired.
  pose proof (total_weight_ge_25 _ Hff) as Hge.
  assert (Htail : (0 ≤ total_weight (fired [longRule url; subdomainRule host]))%Z).
  { apply total_weight_nonneg, Forall_fired. repeat constructor. }
  split.
  - rewrite total_weight_app. intros Hle.
    assert (fired front = []) as Hnil.
    { destruct (fired front); [done|]. specialize (Hge ltac:(done)). lia. }
    rewrite Hnil in *. cbn [app]. unfold fired in *. cbn [List.filter] in *.
    destruct (fires (longRule url)), (fires (subdomainRule host));
      cbn [total_weight fold_right Rule.score longRule subdomainRule] in Hle;
      auto; lia.
  - intros [-> | ->]; cbn [total_weight fold_right Rule.score longRule]; lia.
Qed.

End MoreAnalyzerProperties.

(** ** The host inside the lower-cased input *)

Lemma prefix_before_spec p s :
  ∃ post, s = prefix_before p s ++ post
          ∧ forallb (λ c, negb (p c)) (prefix_before p s) = true.
Proof.
  induction s as [|c t (post & Ht & Hall)]; simpl.
  - by exists [].
  - destruct (p c) eqn:Hc.
    + by exists (c :: t).
    + exists post. simpl. rewrite Hc, Hall. split; [by rewrite <- Ht|done].
Qed.

Lemma strip_leading_suffix pat s : ∃ pre, s = pre ++ strip_leading pat s.
Proof.
  unfold strip_leading. destruct (startsWith s pat).
  - exists (take (length pat) s). by rewrite take_drop.
  - by exists [].
Qed.

Lemma strip_scheme_suffix s : ∃ pre, s = pre ++ strip_scheme_spec s.
Proof.
  unfold strip_scheme_spec.
  destruct (startsWith s (js "http://")); [|destruct (startsWith s (js "https://"))].
  - exists (take 7 s). by rewrite take_drop.
  - exists (take 8 s). by rewrite take_drop.
  - by exists [].
Qed.

Lemma startsWith_app_r s t w :
  startsWith s w = true → startsWith (s ++ t) w = true.
Proof.
  revert s. induction w as [|c w IH]; intros s; [intros _; apply startsWith_nil|].
  destruct s as [|d s]; [done|]. simpl.
  rewrite !andb_true_iff. intros [-> H]. auto.
Qed.

Lemma includes_app_r s t w : includes s w = true → includes (s ++ t) w = true.
Proof.
  induction s as [|d s IH]; simpl.
  - rewrite orb_false_r. intros H. destruct w; [|done].
    destruct t; apply orb_true_iff; left; apply startsWith_nil.
  - rewrite !orb_true_iff. intros [H|H]; [left|right; auto].
    by apply (startsWith_app_r (d :: s)).
Qed.

Lemma includes_app_l pre s w : includes s w = true → includes (pre ++ s) w = true.
Proof.
  intros H. induction pre as [|d pre IH]; [done|]. simpl.
  rewrite IH. apply orb_true_r.
Qed.

Section HostProperties.

Variable toLowerCase : jsstring → jsstring.

Local Abbreviation analyze := (analyzeURL toLowerCase).
Local Abbreviation derive := (forms toLowerCase).

Lemma host_inside_lower s url lower clean host :
  derive s = (url, lower, clean, Some host) →
  (∃ pre post, lower = pre ++ host ++ post)
  ∧ forallb (λ c, negb (isPathDelim c)) host = true.
Proof.
  rewrite forms_normalize. unfold normalize_spec. intros [= _ <- _ <-].
  set (l := toLowerCase (trim s)).
  destruct (strip_scheme_suffix l) as (pre1 & H1).
  destruct (strip_leading_suffix (js "www.") (strip_scheme_spec l)) as (pre2 & H2).
  destruct (prefix_before_spec isPathDelim
              (strip_leading (js "www.") (strip_scheme_spec l)))
    as (post & H3 & Hall).
  split; [|done]. exists (pre1 ++ pre2), post.
  rewrite <- app_assoc, <- H3, <- H2. done.
Qed.

Lemma host_word_in_lower s url lower clean host w :
  derive s = (url, lower, clean, Some host) →
  includes host w = true → includes lower w = true.
Proof.
  intros Hf Hw. destruct (host_inside_lower _ _ _ _ _ Hf) as [(pre & post & ->) _].
  by apply includes_app_l, includes_app_r.
Qed.

(** X14. The host is a contiguous part of the lower-cased input and holds
    no ['/'], ['?'] or ['#']; so whatever a rule finds in the host, the
    rules reading the lower-cased input find too. *)
Theorem host_within_lower s :
  ∃ url lower clean host,
    derive s = (url, lower, clean, Some host)
    ∧ (∃ pre post, lower = pre ++ host ++ post)
    ∧ forallb (λ c, negb (isPathDelim c)) host = true
    ∧ (∀ w, includes host w = true → includes lower w = true).
Proof.
  destruct (forms_host toLowerCase s) as (url & lower & clean & host & Hf).
  exists url, lower, clean, host.
  destruct (host_inside_lower _ _ _ _ _ Hf) as [Hin Hall].
  split_and!; try done. intros w. by apply (host_word_in_lower s url lower clean).
Qed.

(** X15. A host that contains one of the auto-unsafe TLD strings is
    always UNSAFE, with a score of at least 90 and the TLD message among
    the findings. *)
Theorem auto_unsafe_tld s url lower clean host tld :
  derive s = (url, lower, clean, Some host) →
  In tld autoUnsafeTLDs →
  includes host tld = true →
  ∃ r, analyze s = Some r
       ∧ verdict r = UNSAFE
       ∧ (90 ≤ score r)%Z
       ∧ js "Domain uses high-risk TLD '" ++ tld ++ js "'." ∈ findings r.
Proof.
  intros Hf Htld Hinc. eexists.
  split; [by apply (analyzeURL_fired _ s url lower clean)|].
  assert (Hfired : tldRule host tld ∈ fired (rules url lower host)).
  { apply fired_elem; [|unfold fires; cbn [Rule.check tldRule]; by rewrite Hinc].
    unfold rules. apply elem_of_app. left.
    by apply list_elem_of_In, in_map. }
  pose proof (rules_weights_positive url lower host) as Hpos.
  apply Forall_fired in Hpos.
  pose proof (total_weight_elem _ _ Hpos Hfired) as Hge.
  cbn [Rule.score tldRule] in Hge.
  destruct (conclude_verdict_by_risk
              (total_weight (fired (rules url lower host)))
              (List.map Rule.msg (fired (rules url lower host)))
              (fired_weight_nonneg url lower host)) as (_ & _ & Hunsafe).
  split; [apply Hunsafe; lia|]. split; [cbn [conclude score]; lia|].
  rewrite conclude_findings.
  apply list_elem_of_In. apply list_elem_of_In in Hfired.
  apply (in_map Rule.msg) in Hfired. exact Hfired.
Qed.

(** X16. The running total lies between 0 and 3700, the sum of all 79
    weights: it stays an exactly represented integer. *)
Theorem running_total_bounded s :
  ∃ url lower clean host,
    derive s = (url, lower, clean, Some host)
    ∧ total_weight (rules url lower host) = 3700%Z
    ∧ (0 ≤ total_weight (fired (rules url lower host)) ≤ 3700)%Z.
Proof.
  destruct (forms_host toLowerCase s) as (url & lower & clean & host & Hf).
  exists url, lower, clean, host. split; [done|].
  assert (Hall : total_weight (rules url lower host) = 3700%Z) by (by vm_compute).
  split; [done|]. split; [apply fired_weight_nonneg|].
  rewrite <- Hall. apply total_weight_fired_le, rules_weights_positive.
Qed.

End HostProperties.

Lemma auto_unsafe_tld_witness :
  forms asciiLowerCase (js "http://paypal.test/pay")
  = (js "http://paypal.test/pay", js "http://paypal.test/pay",
     js "paypal.test/pay", Some (js "paypal.test"))
  ∧ In (js ".test") autoUnsafeTLDs
  ∧ includes (js "paypal.test") (js ".test") = true
  ∧ ∃ r, analyzeURL asciiLowerCase (js "http://paypal.test/pay") = Some r
         ∧ verdict r = UNSAFE
         ∧ (90 ≤ score r)%Z
         ∧ js "Domain uses high-risk TLD '" ++ js ".test" ++ js "'." ∈ findings r.
Proof.
  assert (H1 : forms asciiLowerCase (js "http://paypal.test/pay")
               = (js "http://paypal.test/pay", js "http://paypal.test/pay",
                  js "paypal.test/pay", Some (js "paypal.test")))
    by (vm_compute; reflexivity).
  assert (H2 : In (js ".test") autoUnsafeTLDs)
    by (right; right; left; reflexivity).
  assert (H3 : includes (js "paypal.test") (js ".test") = true)
    by (vm_compute; reflexivity).
  split; [exact H1|]. split; [exact H2|]. split; [exact H3|].
  exact (auto_unsafe_tld asciiLowerCase _ _ _ _ _ _ H1 H2 H3).
Defined.

(** ** Words that two rule families share *)

Section SharedWords.

Variable toLowerCase : jsstring → jsstring.

Local Abbreviation analyze := (analyzeURL toLowerCase).
Local Abbreviation derive := (forms toLowerCase).

(** X17. [fedex], [ups], [usps] and [dhl] are both high-risk brands and
    delivery words.  When the host contains one of them, the brand rule
    (50) and the delivery rule (40) both fire, so the verdict is UNSAFE
    with a score of at least 90. *)
Theorem delivery_brand_in_host s url lower clean host w :
  derive s = (url, lower, clean, Some host) →
  In w [js "fedex"; js "ups"; js "usps"; js "dhl"] →
  includes host w = true →
  ∃ r, analyze s = Some r
       ∧ fires (brandRule host w) = true
       ∧ fires (deliveryRule lower w) = true
       ∧ verdict r = UNSAFE
       ∧ (90 ≤ score r)%Z.
Proof.
  intros Hf Hw Hinc. eexists.
  split; [by apply (analyzeURL_fired _ s url lower clean)|].
  pose proof (host_word_in_lower _ _ _ _ _ _ w Hf Hinc) as Hlow.
  assert (Hb : fires (brandRule host w) = true)
    by (unfold fires; cbn [Rule.check brandRule]; by rewrite Hinc).
  assert (Hd : fires (deliveryRule lower w) = true)
    by (unfold fires; cbn [Rule.check deliveryRule]; by rewrite Hlow).
  assert (Hbrand : In w highRiskBrands).
  { simpl in Hw. destruct Hw as [<-|[<-|[<-|[<-|[]]]]]; vm_compute; tauto. }
  assert (Hdeliv : In w deliveryWords).
  { simpl in Hw. destruct Hw as [<-|[<-|[<-|[<-|[]]]]]; vm_compute; tauto. }
  assert (Htotal : (90 ≤ total_weight (fired (rules url lower host)))%Z).
  { pose proof (rules_weights_positive url lower host) as Hpos.
    unfold rules in *. rewrite !Forall_app in Hpos. destruct_and!.
    assert (50 ≤ total_weight (fired (List.map (brandRule host) highRiskBrands)))%Z.
    { apply (total_weight_elem (brandRule host w)); [by apply Forall_fired|].
      apply fired_elem; [|done]. by apply list_elem_of_In, in_map. }
    assert (40 ≤ total_weight (fired (List.map (deliveryRule lower) deliveryWords)))%Z.
    { apply (total_weight_elem (deliveryRule lower w)); [by apply Forall_fired|].
      apply fired_elem; [|done]. by apply list_elem_of_In, in_map. }
    repeat match goal with
           | H : Forall _ _ |- _ =>
               apply Forall_fired in H; apply total_weight_nonneg in H
           end.
    rewrite !fired_app, !total_weight_app. lia. }
  destruct (conclude_verdict_by_risk
              (total_weight (fired (rules url lower host)))
              (List.map Rule.msg (fired (rules url lower host)))
              (fired_weight_nonneg url lower host)) as (_ & _ & Hunsafe).
  split_and!; try done; [apply Hunsafe; lia|cbn [conclude score]; lia].
Qed.

End SharedWords.

Lemma delivery_brand_in_host_witness :
  forms asciiLowerCase (js "http://fedex-tracking.example.com/a")
  = (js "http://fedex-tracking.example.com/a",
     js "http://fedex-tracking.example.com/a",
     js "fedex-tracking.example.com/a", Some (js "fedex-tracking.example.com"))
  ∧ In (js "fedex") [js "fedex"; js "ups"; js "usps"; js "dhl"]
  ∧ includes (js "fedex-tracking.example.com") (js "fedex") = true
  ∧ ∃ r, analyzeURL asciiLowerCase (js "http://fedex-tracking.example.com/a")
         = Some r
         ∧ fires (brandRule (js "fedex-tracking.example.com") (js "fedex")) = true
         ∧ fires (deliveryRule (js "http://fedex-tracking.example.com/a")
                    (js "fedex")) = true
         ∧ verdict r = UNSAFE
         ∧ (90 ≤ score r)%Z.
Proof.
  assert (H1 : forms asciiLowerCase (js "http://fedex-tracking.example.com/a")
    = (js "http://fedex-tracking.example.com/a",
       js "http://fedex-tracking.example.com/a",
       js "fedex-tracking.example.com/a", Some (js "fedex-tracking.example.com")))
    by (vm_compute; reflexivity).
  assert (H2 : In (js "fedex") [js "fedex"; js "ups"; js "usps"; js "dhl"])
    by (left; reflexivity).
  assert (H3 : includes (js "fedex-tracking.example.com") (js "fedex") = true)
    by (vm_compute; reflexivity).
  split; [exact H1|]. split; [exact H2|]. split; [exact H3|].
  exact (delivery_brand_in_host asciiLowerCase _ _ _ _ _ _ H1 H2 H3).
Defined.

(** ** Trimming *)

Lemma trimStart_all_ws ws : forallb isWhiteSpace ws = true → trimStart ws = [].
Proof.
  induction ws as [|c ws IH]; [done|]. simpl.
  intros [-> H]%andb_true_iff. auto.
Qed.

Lemma trimStart_app_ws ws s :
  forallb isWhiteSpace ws = true → trimStart (ws ++ s) = trimStart s.
Proof.
  induction ws as [|c ws IH]; [done|]. simpl.
  intros [-> H]%andb_true_iff. auto.
Qed.

Lemma trimStart_nil s : trimStart s = [] → forallb isWhiteSpace s = true.
Proof.
  induction s as [|c s IH]; [done|]. simpl.
  destruct (isWhiteSpace c); [auto|done].
Qed.

Lemma trimStart_app_r s t : trimStart s ≠ [] → trimStart (s ++ t) = trimStart s ++ t.
Proof.
  induction s as [|c s IH]; [done|]. simpl.
  destruct (isWhiteSpace c); [auto|done].
Qed.

Lemma trimStart_head s c r : trimStart s = c :: r → isWhiteSpace c = false.
Proof.
  induction s as [|d s IH]; [done|]. simpl.
  destruct (isWhiteSpace d) eqn:Hd; [auto|]. by intros [= <- _].
Qed.

Lemma trimStart_decomp s :
  ∃ ws, s = ws ++ trimStart s ∧ forallb isWhiteSpace ws = true.
Proof.
  induction s as [|c s (ws & Hs & Hws)]; [by exists []|]. simpl.
  destruct (isWhiteSpace c) eqn:Hc.
  - exists (c :: ws). simpl. rewrite Hc, Hws. by rewrite <- Hs.
  - by exists [].
Qed.

Lemma trimStart_length s : length (trimStart s) ≤ length s.
Proof.
  destruct (trimStart_decomp s) as (ws & Hs & _).
  rewrite Hs at 2. rewrite length_app. lia.
Qed.

Lemma forallb_rev (p : N → bool) s : forallb p (rev s) = forallb p s.
Proof.
  induction s as [|c s IH]; [done|]. simpl.
  rewrite forallb_app, IH. simpl. by rewrite andb_true_r, andb_comm.
Qed.

Lemma trimEnd_app_ws s ws :
  forallb isWhiteSpace ws = true → trimEnd (s ++ ws) = trimEnd s.
Proof.
  intros H. unfold trimEnd.
  by rewrite rev_app_distr, trimStart_app_ws by (by rewrite forallb_rev).
Qed.

Lemma trimEnd_decomp s :
  ∃ ws, s = trimEnd s ++ ws ∧ forallb isWhiteSpace ws = true.
Proof.
  unfold trimEnd. destruct (trimStart_decomp (rev s)) as (ws & Hs & Hws).
  exists (rev ws). rewrite forallb_rev. split; [|done].
  by rewrite <- rev_app_distr, <- Hs, rev_involutive.
Qed.

Lemma trimEnd_length s : length (trimEnd s) ≤ length s.
Proof.
  unfold trimEnd. rewrite length_rev, <- (length_rev s). apply trimStart_length.
Qed.

(** Whitespace around a string does not survive [trim]. *)
Lemma trim_pad ws1 s ws2 :
  forallb isWhiteSpace ws1 = true → forallb isWhiteSpace ws2 = true →
  trim (ws1 ++ s ++ ws2) = trim s.
Proof.
  intros H1 H2. unfold trim. rewrite (trimStart_app_ws _ _ H1).
  destruct (trimStart s) as [|c r] eqn:Hs.
  - apply trimStart_nil in Hs.
    rewrite trimStart_all_ws; [done|]. by rewrite forallb_app, Hs, H2.
  - rewrite trimStart_app_r, Hs by (by rewrite Hs). by apply trimEnd_app_ws.
Qed.

Lemma trim_decomp s :
  ∃ ws1 ws2, s = ws1 ++ trim s ++ ws2
             ∧ forallb isWhiteSpace ws1 = true
             ∧ forallb isWhiteSpace ws2 = true.
Proof.
  destruct (trimStart_decomp s) as (ws1 & Hs1 & Hws1).
  destruct (trimEnd_decomp (trimStart s)) as (ws2 & Hs2 & Hws2).
  exists ws1, ws2. unfold trim. by rewrite <- Hs2, <- Hs1.
Qed.

Lemma trim_idempotent s : trim (trim s) = trim s.
Proof.
  destruct (trim_decomp s) as (ws1 & ws2 & Hs & H1 & H2).
  rewrite Hs at 2. by rewrite trim_pad.
Qed.

Lemma trim_length s : length (trim s) ≤ length s.
Proof.
  unfold trim. pose proof (trimEnd_length (trimStart s)).
  pose proof (trimStart_length s). lia.
Qed.

Lemma trim_first s c r : trim s = c :: r → isWhiteSpace c = false.
Proof.
  intros Hs. destruct (isWhiteSpace c) eqn:Hc; [|done].
  pose proof (trim_idempotent s) as Hi. rewrite Hs in Hi at 1.
  assert (length (trim (c :: r)) ≤ length r); [|rewrite Hi, Hs in *; simpl in *; lia].
  unfold trim. simpl. rewrite Hc.
  pose proof (trimEnd_length (trimStart r)). pose proof (trimStart_length r). lia.
Qed.

Lemma trim_last s c r : trim s = r ++ [c] → isWhiteSpace c = false.
Proof.
  unfold trim, trimEnd. intros Hs.
  apply (f_equal (@rev N)) in Hs. rewrite rev_involutive, rev_unit in Hs.
  by apply trimStart_head in Hs.
Qed.

Section TrimProperties.

Variable toLowerCase : jsstring → jsstring.

Local Abbreviation analyze := (analyzeURL toLowerCase).

(** X18. Whitespace before and after the input changes nothing: the
    padded input gets the result of the bare one. *)
Theorem whitespace_padding_ignored ws1 s ws2 :
  forallb isWhiteSpace ws1 = true →
  forallb isWhiteSpace ws2 = true →
  analyze (ws1 ++ s ++ ws2) = analyze s.
Proof.
  intros H1 H2. unfold analyzeURL. rewrite (trim_pad _ _ _ H1 H2). reflexivity.
Qed.

(** X19. [trim] removes whitespace only, from the two ends only, and all
    of it there: the input is the trimmed string between two runs of
    whitespace, the trimmed string neither starts nor ends with
    whitespace, and trimming again, or analysing the trimmed string,
    changes nothing. *)
Theorem trim_removes_outer_whitespace s :
  (∃ ws1 ws2, s = ws1 ++ trim s ++ ws2
              ∧ forallb isWhiteSpace ws1 = true
              ∧ forallb isWhiteSpace ws2 = true)
  ∧ (∀ c r, trim s = c :: r → isWhiteSpace c = false)
  ∧ (∀ c r, trim s = r ++ [c] → isWhiteSpace c = false)
  ∧ trim (trim s) = trim s
  ∧ analyze (trim s) = analyze s.
Proof.
  split_and!.
  - apply trim_decomp.
  - apply trim_first.
  - apply trim_last.
  - apply trim_idempotent.
  - unfold analyzeURL. rewrite trim_idempotent. reflexivity.
Qed.

End TrimProperties.

Lemma whitespace_padding_ignored_witness :
  forallb isWhiteSpace (js "  ") = true
  ∧ forallb isWhiteSpace [9%N; 10%N] = true
  ∧ analyzeURL asciiLowerCase (js "  " ++ js "http://go0gle.com" ++ [9%N; 10%N])
    = analyzeURL asciiLowerCase (js "http://go0gle.com").
Proof.
  assert (H1 : forallb isWhiteSpace (js "  ") = true) by (vm_compute; reflexivity).
  assert (H2 : forallb isWhiteSpace [9%N; 10%N] = true) by (vm_compute; reflexivity).
  split; [exact H1|]. split; [exact H2|].
  exact (whitespace_padding_ignored asciiLowerCase _ _ _ H1 H2).
Defined.

(** ** Letter case of ASCII input *)

Lemma isWhiteSpace_range c : (33 ≤ c ≤ 127)%N → isWhiteSpace c = false.
Proof.
  intros Hc. apply not_true_is_false. unfold isWhiteSpace.
  rewrite !orb_true_iff, !in_range_spec, !N.eqb_eq. lia.
Qed.

Lemma isWhiteSpace_lowerUnit c : isWhiteSpace (lowerUnit c) = isWhiteSpace c.
Proof.
  unfold lowerUnit, isUpper. destruct (in_range 65 90 c) eqn:Hc; [|done].
  apply in_range_spec in Hc. rewrite !isWhiteSpace_range; (done || lia).
Qed.

Lemma lowerUnit_idempotent c : lowerUnit (lowerUnit c) = lowerUnit c.
Proof.
  unfold lowerUnit, isUpper. destruct (in_range 65 90 c) eqn:Hc; [|by rewrite Hc].
  apply in_range_spec in Hc.
  assert (in_range 65 90 (c + 32) = false) as ->; [|done].
  apply not_true_is_false. rewrite in_range_spec. lia.
Qed.

Lemma isAscii_lowerUnit c : isAscii (lowerUnit c) = isAscii c.
Proof.
  unfold lowerUnit, isUpper, isAscii. destruct (in_range 65 90 c) eqn:Hc; [|done].
  apply in_range_spec in Hc.
  destruct (N.ltb_spec (c + 32) 128), (N.ltb_spec c 128); (done || lia).
Qed.

Lemma trimStart_lower s :
  trimStart (asciiLowerCase s) = asciiLowerCase (trimStart s).
Proof.
  unfold asciiLowerCase. induction s as [|c s IH]; [done|]. simpl.
  rewrite isWhiteSpace_lowerUnit. by destruct (isWhiteSpace c).
Qed.

Lemma trim_lower s : trim (asciiLowerCase s) = asciiLowerCase (trim s).
Proof.
  unfold trim, trimEnd. rewrite trimStart_lower.
  unfold asciiLowerCase at 1. rewrite <- map_rev.
  fold (asciiLowerCase (rev (trimStart s))).
  rewrite trimStart_lower. unfold asciiLowerCase. by rewrite map_rev.
Qed.

Lemma forallb_trim (p : N → bool) s :
  forallb p s = true → forallb p (trim s) = true.
Proof.
  destruct (trim_decomp s) as (ws1 & ws2 & Hs & _). intros H.
  rewrite Hs, !forallb_app, !andb_true_iff in H. tauto.
Qed.

Lemma hasHomoglyphs_ascii s : forallb isAscii s = true → hasHomoglyphs s = false.
Proof.
  unfold hasHomoglyphs. induction s as [|c s IH]; [done|]. simpl.
  intros [Hc Hs]%andb_true_iff. rewrite (IH Hs), orb_false_r.
  apply N.ltb_lt in Hc. apply not_true_is_false.
  rewrite orb_true_iff, !in_range_spec. lia.
Qed.

(** Only two facts about [url] reach the rules. *)
Lemma rules_url url url' lower host :
  hasHomoglyphs url = hasHomoglyphs url' → length url = length url' →
  rules url lower host = rules url' lower host.
Proof.
  intros Hh Hl. unfold rules, homoglyphRule, longRule. by rewrite Hh, Hl.
Qed.

Section LetterCase.

Variable toLowerCase : jsstring → jsstring.

Hypothesis toLowerCase_ascii :
  ∀ s, forallb isAscii s = true → toLowerCase s = asciiLowerCase s.

Local Abbreviation analyze := (analyzeURL toLowerCase).

(** X20. On ASCII input the analyzer does not see letter case: two
    ASCII-only inputs that agree once lower-cased get the same result
    (given that the runtime lower-cases ASCII strings unit by unit). *)
Theorem ascii_case_insensitive s s' :
  forallb isAscii s = true →
  forallb isAscii s' = true →
  asciiLowerCase s = asciiLowerCase s' →
  analyze s = analyze s'.
Proof.
  intros Hs Hs' Heq. unfold analyzeURL.
  rewrite !toLowerCase_ascii by (by apply forallb_trim).
  rewrite <- !trim_lower, <- Heq.
  assert (Hlen : length (trim s) = length (trim s')).
  { rewrite <- (length_map lowerUnit (trim s)), <- (length_map lowerUnit (trim s')).
    fold (asciiLowerCase (trim s)). fold (asciiLowerCase (trim s')).
    by rewrite <- !trim_lower, Heq. }
  assert (Hhom : hasHomoglyphs (trim s) = hasHomoglyphs (trim s'))
    by (by rewrite !hasHomoglyphs_ascii by (by apply forallb_trim)).
  destruct (split isPathDelim _ !! 0) as [host|]; [|done].
  cbv [mbind option_bind].
  by rewrite (rules_url (trim s) (trim s') _ host Hhom Hlen).
Qed.

End LetterCase.

Lemma ascii_case_insensitive_witness :
  (∀ s, forallb isAscii s = true → asciiLowerCase s = asciiLowerCase s)
  ∧ forallb isAscii (js "HTTP://WWW.Go0gle.COM/Login") = true
  ∧ forallb isAscii (js "http://www.go0gle.com/login") = true
  ∧ asciiLowerCase (js "HTTP://WWW.Go0gle.COM/Login")
    = asciiLowerCase (js "http://www.go0gle.com/login")
  ∧ analyzeURL asciiLowerCase (js "HTTP://WWW.Go0gle.COM/Login")
    = analyzeURL asciiLowerCase (js "http://www.go0gle.com/login").
Proof.
  assert (H1 : forallb isAscii (js "HTTP://WWW.Go0gle.COM/Login") = true)
    by (vm_compute; reflexivity).
  assert (H2 : forallb isAscii (js "http://www.go0gle.com/login") = true)
    by (vm_compute; reflexivity).
  assert (H3 : asciiLowerCase (js "HTTP://WWW.Go0gle.COM/Login")
               = asciiLowerCase (js "http://www.go0gle.com/login"))
    by (vm_compute; reflexivity).
  split; [reflexivity|]. split; [exact H1|]. split; [exact H2|].
  split; [exact H3|].
  exact (ascii_case_insensitive asciiLowerCase (λ s _, eq_refl) _ _ H1 H2 H3).
Defined.

(** ** What the handler shows *)

Lemma rules_messages url lower host :
  List.map Rule.msg (rules url lower host) = catalogue_messages.
Proof.
  unfold catalogue_messages, rules. rewrite !map_app, !map_map. reflexivity.
Qed.

Lemma catalogue_no_markup :
  forallb (λ m, negb (existsb (N.eqb 60) m)) catalogue_messages = true.
Proof. by vm_compute. Qed.

Lemma count_matches_filter c s :
  count_matches c s = length (List.filter (N.eqb c) s).
Proof.
  unfold count_matches, match_all.
  destruct (List.filter (N.eqb c) s); [done|]. simpl. by rewrite length_map.
Qed.

Lemma count_matches_app c s t :
  count_matches c (s ++ t) = count_matches c s + count_matches c t.
Proof. by rewrite !count_matches_filter, filter_app, length_app. Qed.

Lemma count_matches_absent c s :
  existsb (N.eqb c) s = false → count_matches c s = 0.
Proof.
  rewrite count_matches_filter. induction s as [|d s IH]; [done|]. simpl.
  destruct (c =? d)%N; [done|]. auto.
Qed.

Lemma join_nil_cons x l : join [] (x :: l) = x ++ join [] l.
Proof. destruct l; simpl; [by rewrite app_nil_r|done]. Qed.

Lemma fired_messages_in_catalogue url lower host :
  Forall (λ m, In m catalogue_messages)
    (List.map Rule.msg (fired (rules url lower host))).
Proof.
  rewrite <- (rules_messages url lower host).
  apply List.Forall_forall. intros m Hm.
  apply in_map_iff in Hm as (r & <- & Hr). apply in_map.
  unfold fired in Hr. by apply filter_In in Hr as [Hr _].
Qed.

Lemma list_tags_count fs :
  Forall (λ m, In m catalogue_messages) fs →
  count_matches 60 (join [] (List.map (λ i, js "<li>" ++ i ++ js "</li>") fs))
  = 2 * length fs.
Proof.
  induction 1 as [|m fs Hm _ IH]; [done|].
  cbn [List.map]. rewrite join_nil_cons, !count_matches_app, IH.
  pose proof catalogue_no_markup as Hcat.
  rewrite forallb_forall in Hcat. apply Hcat, negb_true_iff in Hm.
  rewrite (count_matches_absent _ _ Hm).
  change (count_matches 60 (js "<li>")) with 1.
  change (count_matches 60 (js "</li>")) with 1. simpl. lia.
Qed.

Section Handler.

Variable toLowerCase : jsstring → jsstring.

Local Abbreviation analyze := (analyzeURL toLowerCase).

(** X21. Every finding is one of the 79 messages of the catalogue,
    whatever the input, and none of them contains ['<']: the list the
    handler writes into the page has exactly one [<li>] and one [</li>]
    per finding and no markup from the input. *)
Theorem findings_never_echo_input s :
  ∃ r, analyze s = Some r
       ∧ Forall (λ m, In m catalogue_messages) (findings r)
       ∧ length catalogue_messages = 79
       ∧ count_matches 60 (reasonsList r) = 2 * length (findings r).
Proof.
  destruct (forms_host toLowerCase s) as (url & lower & clean & host & Hf).
  eexists. split; [by apply (analyzeURL_fired _ s url lower clean)|].
  unfold reasonsList. rewrite conclude_findings.
  pose proof (fired_messages_in_catalogue url lower host) as Hcat.
  split_and!; [done|by vm_compute|by apply list_tags_count].
Qed.

(** X22. The colour of the meter bar and the emoji agree with the
    verdict: green and the check mark for SAFE, yellow and the warning
    sign for SUSPICIOUS, red and the cross for UNSAFE.  The thresholds of
    the handler (at least 80, at least 50) are those of the analyzer. *)
Theorem display_agrees_with_verdict s :
  ∃ r, analyze s = Some r
       ∧ (verdict r = SAFE
          ↔ barBackground r = js "#2ecc71" ∧ emoji r = [9989%N])
       ∧ (verdict r = SUSPICIOUS
          ↔ barBackground r = js "#f1c40f" ∧ emoji r = [9888%N; 65039%N])
       ∧ (verdict r = UNSAFE
          ↔ barBackground r = js "#e74c3c" ∧ emoji r = [10060%N]).
Proof.
  destruct (forms_host toLowerCase s) as (url & lower & clean & host & Hf).
  eexists. split; [by apply (analyzeURL_fired _ s url lower clean)|].
  generalize (total_weight (fired (rules url lower host))).
  generalize (List.map Rule.msg (fired (rules url lower host))).
  intros fs risk. unfold barBackground, emoji, conclude.
  cbn [verdict safePercent].
  destruct (Z.ltb_spec (Z.max 0 (100 - Z.min 100 risk)) 80);
    destruct (Z.ltb_spec (Z.max 0 (100 - Z.min 100 risk)) 50);
    destruct (Z.leb_spec 80 (Z.max 0 (100 - Z.min 100 risk)));
    destruct (Z.leb_spec 50 (Z.max 0 (100 - Z.min 100 risk)));
    try lia; split_and!; split; try done; by intros [[=] _].
Qed.

End Handler.

(** ** The scoring loop on any list of rules *)

(** X23. Whatever the rules, as long as their weights are positive, the
    loop never lowers the running total and never touches the findings it
    already has: it appends at most one message per rule. *)
Theorem forEach_only_appends rs risk fs risk' fs' :
  Forall (λ r, (0 < Rule.score r)%Z) rs →
  forEach rs (risk, fs) = Some (risk', fs') →
  (risk ≤ risk')%Z
  ∧ ∃ added, fs' = fs ++ added ∧ length added ≤ length rs
             ∧ (added = [] ↔ risk' = risk).
Proof.
  intros Hpos. revert risk fs.
  induction Hpos as [|r rs Hr Hrs IH]; intros risk fs; simpl.
  - intros [= <- <-]. split; [lia|]. exists []. by rewrite app_nil_r.
  - destruct (Rule.check r tt) as [[|]|]; simpl; [| |done].
    + intros (Hle & added & -> & Hlen & Hiff)%IH. split; [lia|].
      exists (Rule.msg r :: added). rewrite <- app_assoc. simpl.
      split_and!; [done|lia|]. split; [done|lia].
    + intros (Hle & added & -> & Hlen & Hiff)%IH. split; [lia|].
      exists added. split_and!; [done|lia|done].
Qed.

Lemma forEach_only_appends_witness :
  Forall (λ r, (0 < Rule.score r)%Z) [longRule (js "abc"); hyphenRule (js "a-b-c-d-e")]
  ∧ forEach [longRule (js "abc"); hyphenRule (js "a-b-c-d-e")] (5%Z, [js "x"])
    = Some (45%Z, [js "x"; js "Excessive hyphens indicate synthetic phishing."])
  ∧ (5 ≤ 45)%Z
  ∧ ∃ added,
      [js "x"; js "Excessive hyphens indicate synthetic phishing."]
      = [js "x"] ++ added
      ∧ length added ≤ length [longRule (js "abc"); hyphenRule (js "a-b-c-d-e")]
      ∧ (added = [] ↔ 45%Z = 5%Z).
Proof.
  assert (H1 : Forall (λ r, (0 < Rule.score r)%Z)
                 [longRule (js "abc"); hyphenRule (js "a-b-c-d-e")])
    by (repeat constructor).
  assert (H2 : forEach [longRule (js "abc"); hyphenRule (js "a-b-c-d-e")]
                 (5%Z, [js "x"])
               = Some (45%Z, [js "x"; js "Excessive hyphens indicate synthetic phishing."]))
    by (vm_compute; reflexivity).
  split; [exact H1|]. split; [exact H2|].
  exact (forEach_only_appends _ _ _ _ _ H1 H2).
Defined.
